(** * build-redis: the in-memory store, its command engine and its
      append-only file

    The program embedded here is the main program of the repository in its
    latest form (the one with [listData], [StoredValue], EXPIRE, DEL, HMSET,
    HMGET and the [writeAOFEnabled] gate).  The store is its [RedisStore]: a
    scalar map, a list map, the buffered writer of [redisstore.aof] and the
    gate.  Every method runs under the store's mutex, so a method is one
    atomic step: a function from the store before the call to the result
    and the store after it.  The wall clock ([time.Now]) and the order in
    which [range] walks a Go map are inputs of a step. *)

From Stdlib Require Import ZArith Ascii.
From stdpp Require Import gmap strings list fin_maps.

Local Open Scope string_scope.

(** ** Time

    An instant is the number of nanoseconds since the zero [time.Time]
    (January 1, year 1, 00:00:00 UTC), so [IsZero] tests for [0], [After] is
    the strict order and [Add] is addition of a duration in nanoseconds. *)

Definition Time := Z.
Bind Scope Z_scope with Time.

Definition IsZero (t : Time) : bool := (t =? 0)%Z.
Definition After (t u : Time) : bool := (u <? t)%Z.
Definition Add (t : Time) (d : Z) : Time := (t + d)%Z.

(** A [time.Duration] is an int64: products wrap around. *)
Definition wrap64 (z : Z) : Z := ((z + 2 ^ 63) mod 2 ^ 64 - 2 ^ 63)%Z.
Definition Second : Z := 1000000000%Z.

(** ** Data model *)

Record StoredValue := mkStoredValue {
  value : string;
  expiration : Time
}.

(** [StoredValue{value: v}]: the expiration is the zero time. *)
Definition plainValue (v : string) : StoredValue :=
  {| value := v; expiration := 0%Z |}.

Record Command := mkCommand {
  Name : string;
  Args : list string
}.

(** [aof] is the text written through [aofWriter] so far; the file is opened
    in append mode and every write is flushed at once. *)
Record RedisStore := mkRedisStore {
  data : gmap string StoredValue;
  listData : gmap string (list string);
  aof : string;
  writeAOFEnabled : bool
}.

Definition NewRedisStore : RedisStore :=
  {| data := ∅; listData := ∅; aof := ""; writeAOFEnabled := false |}.

Definition setData (d : gmap string StoredValue) (r : RedisStore) : RedisStore :=
  {| data := d; listData := listData r; aof := aof r;
     writeAOFEnabled := writeAOFEnabled r |}.

Definition setListData (l : gmap string (list string)) (r : RedisStore) : RedisStore :=
  {| data := data r; listData := l; aof := aof r;
     writeAOFEnabled := writeAOFEnabled r |}.

Definition setEnabled (b : bool) (r : RedisStore) : RedisStore :=
  {| data := data r; listData := listData r; aof := aof r;
     writeAOFEnabled := b |}.

(** ** The append-only file: writing *)

Definition LF : ascii := "010"%char.
Definition CR : ascii := "013"%char.
Definition SP : ascii := " "%char.

Definition newline : string := String LF "".

(** [strings.Join(args, " ")] *)
Definition Join (args : list string) (sep : string) : string :=
  String.concat sep args.

(** [fmt.Sprintf("%s %s\n", command, strings.Join(args, " "))] *)
Definition aofLine (command : string) (args : list string) : string :=
  command +:+ " " +:+ Join args " " +:+ newline.

Definition writeAOF (command : string) (args : list string) (r : RedisStore)
  : RedisStore :=
  if writeAOFEnabled r then
    {| data := data r; listData := listData r;
       aof := aof r +:+ aofLine command args;
       writeAOFEnabled := writeAOFEnabled r |}
  else r.

(** ** Store methods *)

(** [r.listData[key]] of a missing key is the nil slice. *)
Definition listAt (r : RedisStore) (key : string) : list string :=
  default [] (listData r !! key).

Definition ListPush (key val : string) (r : RedisStore) : RedisStore :=
  setListData (<[key := (listAt r key ++ [val])%list]> (listData r)) r.

Definition ListPop (key : string) (r : RedisStore) : (string * bool) * RedisStore :=
  match listAt r key with
  | [] => (("", false), r)
  | v :: rest => ((v, true), setListData (<[key := rest]> (listData r)) r)
  end.

Definition SetWithExpiration (now : Time) (key val : string) (duration : Z)
    (r : RedisStore) : RedisStore :=
  writeAOF "SET" [key; val]
    (setData (<[key := {| value := val; expiration := Add now duration |}]> (data r)) r).

Definition Set_ (key : string) (val : StoredValue) (r : RedisStore) : RedisStore :=
  writeAOF "SET" [key; value val] (setData (<[key := val]> (data r)) r).

Definition isExpired (now : Time) (e : StoredValue) : bool :=
  negb (IsZero (expiration e)) && After now (expiration e).

(** [Get] takes the read lock only; the line it prints for an expired key
    goes to standard output, which is not part of the store. *)
Definition Get (now : Time) (key : string) (r : RedisStore)
  : (string * bool) * RedisStore :=
  match data r !! key with
  | None => (("", false), r)
  | Some sv => if isExpired now sv then (("", false), r) else ((value sv, true), r)
  end.

Definition Del (key : string) (r : RedisStore) : RedisStore :=
  writeAOF "DEL" [key] (setData (delete key (data r)) r).

(** The composite key of a hash field. *)
Definition fieldKey (key field : string) : string := key +:+ "." +:+ field.

(** ** Iteration over a Go map

    [range] over a map visits every entry once, in an order the language
    leaves unspecified and the runtime randomises: a step is given the
    order as a rearrangement of the entries. *)

Record MapOrder := mkMapOrder {
  rangeOf : list (string * string) → list (string * string);
  rangeOf_perm : ∀ l, rangeOf l ≡ₚ l
}.

Definition rangeMap (o : MapOrder) (m : gmap string string) : list (string * string) :=
  rangeOf o (map_to_list m).

(** One turn of the loop of [HMSet]. *)
Definition hmsetStep (key : string) (r : RedisStore) (kv : string * string)
  : RedisStore :=
  writeAOF "HMSET" [key; kv.1; kv.2]
    (setData (<[fieldKey key kv.1 := plainValue kv.2]> (data r)) r).

Definition HMSet (o : MapOrder) (key : string) (values : gmap string string)
    (r : RedisStore) : RedisStore :=
  foldl (hmsetStep key) r (rangeMap o values).

(** One turn of the loop of [HMGet]; expirations are not looked at. *)
Definition hmgetStep (key : string) (r : RedisStore)
    (result : gmap string string) (field : string) : gmap string string :=
  match data r !! fieldKey key field with
  | Some val => <[field := value val]> result
  | None => result
  end.

Definition HMGet (key : string) (fields : list string) (r : RedisStore)
  : gmap string string * RedisStore :=
  (foldl (hmgetStep key r) ∅ fields, r).

(** ** The command engine *)

(** How a call ends: it returns, it panics (a slice index out of range), or
    it leaves the process through [os.Exit].  The store at that point is
    kept in each case. *)
Inductive Outcome (A : Type) : Type :=
  | Returned (a : A) (r : RedisStore)
  | Panicked (r : RedisStore)
  | Exited (r : RedisStore).
Arguments Returned {A} a r.
Arguments Panicked {A} r.
Arguments Exited {A} r.

Definition storeOf {A} (o : Outcome A) : RedisStore :=
  match o with
  | Returned _ r => r
  | Panicked r => r
  | Exited r => r
  end.

(** What one call of [processCommand] reads from outside the store. *)
Record Env := mkEnv {
  now : Time;
  order : MapOrder
}.

(** [strconv.Atoi], as the Go library documents it: an optional sign, then
    one or more decimal digits, the value within the 64-bit [int]. *)
Definition digitOf (c : ascii) : option Z :=
  let n := Z.of_N (N_of_ascii c) in
  if ((48 <=? n) && (n <=? 57))%Z then Some (n - 48)%Z else None.

Fixpoint digitsOf (s : string) (acc : Z) : option Z :=
  match s with
  | EmptyString => Some acc
  | String c s' =>
      match digitOf c with
      | Some d => digitsOf s' (acc * 10 + d)%Z
      | None => None
      end
  end.

Definition Atoi (s : string) : option Z :=
  let '(neg, body) :=
    match s with
    | String c t =>
        if Ascii.eqb c "-" then (true, t)
        else if Ascii.eqb c "+" then (false, t)
        else (false, s)
    | EmptyString => (false, s)
    end in
  match body with
  | EmptyString => None
  | _ =>
      match digitsOf body 0 with
      | Some n =>
          let v := if neg then (- n)%Z else n in
          if ((- 2 ^ 63 <=? v) && (v <=? 2 ^ 63 - 1))%Z then Some v else None
      | None => None
      end
  end.

(** The loop [for i := 1; i < len(cmd.Args); i += 2] of the HMSET branch,
    over [cmd.Args[1:]]: [cmd.Args[i+1]] of a last, unpaired token is out of
    range. *)
Fixpoint collectPairs (l : list string) (values : gmap string string)
  : option (gmap string string) :=
  match l with
  | [] => Some values
  | [ _ ] => None
  | f :: v :: rest => collectPairs rest (<[f := v]> values)
  end.

(** [result = append(result, k, v)] over the entries in range order. *)
Definition flattenPairs (l : list (string * string)) : list string :=
  flat_map (λ kv, [kv.1; kv.2]) l.

(** [fmt.Sprintf("%v", result)] of a slice of strings. *)
Definition formatSlice (l : list string) : string :=
  "[" +:+ Join l " " +:+ "]".

Definition processCommand (e : Env) (r : RedisStore) (cmd : Command)
  : Outcome string :=
  if String.eqb (Name cmd) "GET" then
    match Args cmd with
    | [k] =>
        let '((val, exists_), r') := Get (now e) k r in
        if exists_ then Returned val r' else Returned "(nil)" r'
    | _ => Returned "" r
    end
  else if String.eqb (Name cmd) "SET" then
    match Args cmd with
    | k :: v :: _ => Returned "OK" (Set_ k (plainValue v) r)
    | _ => Returned "" r
    end
  else if String.eqb (Name cmd) "EXPIRE" then
    match Args cmd with
    | k :: v :: s :: _ =>
        match Atoi s with
        | None => Returned "ERR invalid expire time" r
        | Some seconds =>
            Returned "OK"
              (SetWithExpiration (now e) k v (wrap64 (seconds * Second)) r)
        end
    | _ => Returned "" r
    end
  else if String.eqb (Name cmd) "DEL" then
    match Args cmd with
    | [k] => Returned "OK" (Del k r)
    | _ => Returned "" r
    end
  else if String.eqb (Name cmd) "HMSET" then
    match Args cmd with
    | key :: (_ :: _) as rest =>
        match collectPairs rest ∅ with
        | Some values => Returned "OK" (HMSet (order e) key values r)
        | None => Panicked r
        end
    | _ => Returned "" r
    end
  else if String.eqb (Name cmd) "HMGET" then
    match Args cmd with
    | key :: (_ :: _) as fields =>
        let '(values, r') := HMGet key fields r in
        Returned (formatSlice (flattenPairs (rangeMap (order e) values))) r'
    | _ => Returned "" r
    end
  else if String.eqb (Name cmd) "EXIT" then Exited r
  else Returned "" r.

(** [handleCommands], each command with what it reads from outside. *)
Fixpoint handleCommands (steps : list (Env * Command)) (r : RedisStore)
  : Outcome (list string) :=
  match steps with
  | [] => Returned [] r
  | (e, cmd) :: rest =>
      match processCommand e r cmd with
      | Returned resp r' =>
          match handleCommands rest r' with
          | Returned resps r'' => Returned (resp :: resps) r''
          | o => o
          end
      | Panicked r' => Panicked r'
      | Exited r' => Exited r'
      end
  end.

(** ** The append-only file: reading *)

Inductive error := ErrNotExist | ErrPermission | ErrIO | ErrTooLong.

Definition IsNotExist (e : error) : bool :=
  match e with ErrNotExist => true | _ => false end.

(** What [os.Open] and the reads after it deliver: a failure to open, or the
    bytes read followed by the end of the file ([None]) or a read error. *)
Inductive File :=
  | OpenFails (e : error)
  | Opened (content : string) (readErr : option error).

(** All substrings between occurrences of one separator byte:
    [strings.Split(s, " ")] for the space. *)
Fixpoint splitOn (sep : ascii) (s : string) : list string :=
  match s with
  | EmptyString => [""]
  | String c s' =>
      if Ascii.eqb c sep then "" :: splitOn sep s'
      else match splitOn sep s' with
           | h :: t => String c h :: t
           | [] => [String c ""]
           end
  end.

(** [bufio.ScanLines]: the text between line feeds, without the piece after
    the last line feed when that piece is empty; one trailing carriage
    return of a line is dropped. *)
Definition rawLines (content : string) : list string :=
  let pieces := splitOn LF content in
  match last pieces with
  | Some EmptyString => removelast pieces
  | _ => pieces
  end.

Fixpoint dropCR (s : string) : string :=
  match s with
  | EmptyString => ""
  | String c EmptyString => if Ascii.eqb c CR then "" else s
  | String c s' => String c (dropCR s')
  end.

(** [bufio.MaxScanTokenSize]: a line that does not fit the scanner's buffer
    ends the scan with [bufio.ErrTooLong]. *)
Definition MaxScanTokenSize : Z := 65536%Z.

Fixpoint scanTokens (raw : list string) (readErr : option error)
  : list string * option error :=
  match raw with
  | [] => ([], readErr)
  | l :: rest =>
      if (MaxScanTokenSize <=? Z.of_nat (String.length l))%Z
      then ([], Some ErrTooLong)
      else let '(ts, e) := scanTokens rest readErr in (dropCR l :: ts, e)
  end.

(** The lines [scanner.Scan]/[scanner.Text] produce and the final
    [scanner.Err()]. *)
Definition scanFile (content : string) (readErr : option error)
  : list string * option error :=
  scanTokens (rawLines content) readErr.

(** The loop of [loadAOF]; [envs i] is what the [i]-th call of
    [processCommand] reads from outside. *)
Fixpoint replayLines (envs : nat → Env) (i : nat) (lines : list string)
    (r : RedisStore) : Outcome unit :=
  match lines with
  | [] => Returned tt r
  | line :: rest =>
      match splitOn SP line with
      | command :: (_ :: _) as args =>
          match processCommand (envs i) r (mkCommand command args) with
          | Returned _ r' => replayLines envs (S i) rest r'
          | Panicked r' => Panicked r'
          | Exited r' => Exited r'
          end
      | _ => replayLines envs (S i) rest r
      end
  end.

Definition loadAOF (envs : nat → Env) (f : File) (r : RedisStore)
  : Outcome (option error) :=
  let r0 := setEnabled false r in
  match f with
  | OpenFails e =>
      if IsNotExist e then Returned None r0 else Returned (Some e) r0
  | Opened content readErr =>
      let '(lines, err) := scanFile content readErr in
      match replayLines envs 0 lines r0 with
      | Returned _ r' => Returned err (setEnabled true r')
      | Panicked r' => Panicked r'
      | Exited r' => Exited r'
      end
  end.

(** ** Clients of the store used in the statements below *)

(** Two iteration orders a Go map may show. *)
Definition idOrder : MapOrder :=
  {| rangeOf := λ l, l; rangeOf_perm := λ l, Permutation_refl l |}.

Definition revOrder : MapOrder :=
  {| rangeOf := reverse; rangeOf_perm := reverse_Permutation |}.

(** The store [main] serves from when the file is new: [NewRedisStore]
    followed by [loadAOF] of the empty file. *)
Definition liveStore : RedisStore :=
  {| data := ∅; listData := ∅; aof := ""; writeAOFEnabled := true |}.

Definition pushAll (key : string) (vs : list string) (r : RedisStore) : RedisStore :=
  foldl (λ r' v, ListPush key v r') r vs.

Fixpoint popN (n : nat) (key : string) (r : RedisStore)
  : list (string * bool) * RedisStore :=
  match n with
  | O => ([], r)
  | S n' =>
      let '(res, r') := ListPop key r in
      let '(rs, r'') := popN n' key r' in
      (res :: rs, r'')
  end.

(** The effect of one turn of the loop of [HMSet] on the scalar map, and
    the record it writes when the gate is open. *)
Definition hmsetData (key : string) (d : gmap string StoredValue)
    (kv : string * string) : gmap string StoredValue :=
  <[fieldKey key kv.1 := plainValue kv.2]> d.

Definition hmsetRecord (key : string) (kv : string * string) : string :=
  aofLine "HMSET" [key; kv.1; kv.2].


(** What a call of [processCommand] does to the scalar map, and the records
    it writes while the gate is open, branch by branch.  The lemmas
    [processCommand_data] and [processCommand_aof] tie both to the code. *)
Definition dataAfter (e : Env) (cmd : Command) (d : gmap string StoredValue)
  : gmap string StoredValue :=
  if String.eqb (Name cmd) "SET" then
    match Args cmd with
    | k :: v :: _ => <[k := plainValue v]> d
    | _ => d
    end
  else if String.eqb (Name cmd) "EXPIRE" then
    match Args cmd with
    | k :: v :: s :: _ =>
        match Atoi s with
        | Some seconds =>
            <[k := {| value := v;
                      expiration := Add (now e) (wrap64 (seconds * Second)) |}]> d
        | None => d
        end
    | _ => d
    end
  else if String.eqb (Name cmd) "DEL" then
    match Args cmd with
    | [k] => delete k d
    | _ => d
    end
  else if String.eqb (Name cmd) "HMSET" then
    match Args cmd with
    | key :: (_ :: _) as rest =>
        match collectPairs rest ∅ with
        | Some values => foldl (hmsetData key) d (rangeMap (order e) values)
        | None => d
        end
    | _ => d
    end
  else d.

Definition recordsOf (e : Env) (cmd : Command) : list string :=
  if String.eqb (Name cmd) "SET" then
    match Args cmd with
    | k :: v :: _ => [aofLine "SET" [k; v]]
    | _ => []
    end
  else if String.eqb (Name cmd) "EXPIRE" then
    match Args cmd with
    | k :: v :: s :: _ =>
        match Atoi s with
        | Some _ => [aofLine "SET" [k; v]]
        | None => []
        end
    | _ => []
    end
  else if String.eqb (Name cmd) "DEL" then
    match Args cmd with
    | [k] => [aofLine "DEL" [k]]
    | _ => []
    end
  else if String.eqb (Name cmd) "HMSET" then
    match Args cmd with
    | key :: (_ :: _) as rest =>
        match collectPairs rest ∅ with
        | Some values => map (hmsetRecord key) (rangeMap (order e) values)
        | None => []
        end
    | _ => []
    end
  else [].

(** The records of a step, gate taken into account. *)
Definition logged (r : RedisStore) (recs : list string) : list string :=
  if writeAOFEnabled r then recs else [].

Definition responseOf (o : Outcome string) : option string :=
  match o with
  | Returned a _ => Some a
  | _ => None
  end.

Definition sameEnding {A B} (o1 : Outcome A) (o2 : Outcome B) : Prop :=
  match o1, o2 with
  | Returned _ _, Returned _ _ => True
  | Panicked _, Panicked _ => True
  | Exited _, Exited _ => True
  | _, _ => False
  end.

(** Two HMGET responses that list the same field/value pairs, each in its
    own order. *)
Definition samePairs (s1 s2 : string) : Prop :=
  ∃ p1 p2 : list (string * string),
    p1 ≡ₚ p2 ∧ s1 = formatSlice (flattenPairs p1)
    ∧ s2 = formatSlice (flattenPairs p2).

(** The scalar entry one turn of the loop of [HMSet] writes. *)
Definition hmsetEntry (key : string) (kv : string * string)
  : string * StoredValue :=
  (fieldKey key kv.1, plainValue kv.2).

(** The lines a replay passes over: blank lines, lines [strings.Split]
    cuts into fewer than two parts, and lines whose first part is none of
    the names [processCommand] switches on. *)
Definition recognized (name : string) : bool :=
  String.eqb name "GET" || String.eqb name "SET" || String.eqb name "EXPIRE"
  || String.eqb name "DEL" || String.eqb name "HMSET" || String.eqb name "HMGET"
  || String.eqb name "EXIT".

Definition blankLine (line : string) : Prop := line = "".

Definition unparseableLine (line : string) : Prop :=
  (length (splitOn SP line) < 2)%nat.

Definition unrecognizedLine (line : string) : Prop :=
  match splitOn SP line with
  | name :: _ => recognized name = false
  | [] => True
  end.

Definition skippedLine (line : string) : Prop :=
  blankLine line ∨ unparseableLine line ∨ unrecognizedLine line.

(** ** Restart: a run of the store followed by a replay of its log *)

(** What is done to a store between two starts: commands through the
    command engine, and direct calls of the list methods (no command of
    [processCommand] reaches them). *)
Inductive Op :=
  | OpCommand (e : Env) (cmd : Command)
  | OpListPush (key val : string)
  | OpListPop (key : string).

(** The store when the run stops: after the last operation, or at the
    panic or exit of a command. *)
Fixpoint runOps (ops : list Op) (r : RedisStore) : Outcome unit :=
  match ops with
  | [] => Returned tt r
  | OpCommand e cmd :: rest =>
      match processCommand e r cmd with
      | Returned _ r' => runOps rest r'
      | Panicked r' => Panicked r'
      | Exited r' => Exited r'
      end
  | OpListPush key val :: rest => runOps rest (ListPush key val r)
  | OpListPop key :: rest => runOps rest (ListPop key r).2
  end.

Definition clearExpiration (sv : StoredValue) : StoredValue :=
  plainValue (value sv).

Fixpoint hasChar (c : ascii) (s : string) : bool :=
  match s with
  | EmptyString => false
  | String x s' => Ascii.eqb x c || hasChar c s'
  end.

(** An argument the line formats carry unharmed: no space, no line feed,
    no carriage return. *)
Definition plainArg (a : string) : Prop :=
  hasChar SP a = false ∧ hasChar LF a = false ∧ hasChar CR a = false.

(** The command as one line of the wire protocol. *)
Definition lineOf (cmd : Command) : string :=
  Name cmd +:+ " " +:+ Join (Args cmd) " ".

(** A command as a client line delivers it: plain arguments, and a line
    that fits a scanner's buffer. *)
Definition wireCommand (cmd : Command) : Prop :=
  Forall plainArg (Args cmd)
  ∧ (Z.of_nat (String.length (lineOf cmd)) < MaxScanTokenSize)%Z.

Definition wireOp (op : Op) : Prop :=
  match op with
  | OpCommand _ cmd => wireCommand cmd
  | _ => True
  end.

(** A record without its line feed, and the lines a scan gives back
    unchanged. *)
Definition recLine (command : string) (args : list string) : string :=
  command +:+ " " +:+ Join args " ".

Definition goodLine (line : string) : Prop :=
  hasChar LF line = false ∧ hasChar CR line = false
  ∧ (Z.of_nat (String.length line) < MaxScanTokenSize)%Z.

Definition terminated (line : string) : string := line +:+ newline.

(** The record lines of a command, without their line feeds. *)
Definition recordLinesOf (e : Env) (cmd : Command) : list string :=
  if String.eqb (Name cmd) "SET" then
    match Args cmd with
    | k :: v :: _ => [recLine "SET" [k; v]]
    | _ => []
    end
  else if String.eqb (Name cmd) "EXPIRE" then
    match Args cmd with
    | k :: v :: s :: _ =>
        match Atoi s with
        | Some _ => [recLine "SET" [k; v]]
        | None => []
        end
    | _ => []
    end
  else if String.eqb (Name cmd) "DEL" then
    match Args cmd with
    | [k] => [recLine "DEL" [k]]
    | _ => []
    end
  else if String.eqb (Name cmd) "HMSET" then
    match Args cmd with
    | key :: (_ :: _) as rest =>
        match collectPairs rest ∅ with
        | Some values =>
            map (λ kv, recLine "HMSET" [key; kv.1; kv.2])
                (rangeMap (order e) values)
        | None => []
        end
    | _ => []
    end
  else [].

(** The store a replay rebuilds from the records of a scalar map [d]:
    values kept, expirations gone, no lists, nothing written. *)
Definition replicaOf (d : gmap string StoredValue) (enabled : bool) : RedisStore :=
  {| data := clearExpiration <$> d; listData := ∅; aof := "";
     writeAOFEnabled := enabled |}.

(** The length of [strings.Join(l, " ")]. *)
Definition joinLen (l : list string) : nat := String.length (Join l " ").

(** A run used as an example below: a SET, an EXPIRE of ten seconds at time
    100, an HMSET of two fields, a DEL, and a direct list push. *)
Definition sampleRun : list Op :=
  [ OpCommand (mkEnv 100 idOrder) (mkCommand "SET" ["a"; "1"]);
    OpCommand (mkEnv 100 idOrder) (mkCommand "EXPIRE" ["k"; "v"; "10"]);
    OpCommand (mkEnv 101 revOrder) (mkCommand "HMSET" ["h"; "f1"; "v1"; "f2"; "v2"]);
    OpCommand (mkEnv 102 idOrder) (mkCommand "DEL" ["a"]);
    OpListPush "q" "x" ].

(** EXPIRE with no delay at time 100. *)
Definition expireRun : list Op :=
  [ OpCommand (mkEnv 100 idOrder) (mkCommand "EXPIRE" ["k"; "v"; "0"]) ].

(** ** The front ends: network lines and the interactive loop *)

(** [strings.Fields] and [strings.ToUpper] on a string of ASCII bytes, the
    path both take when no byte is [0x80] or above (beyond it they decode
    runes and consult the Unicode tables).  The statements about them
    below are for ASCII lines. *)
Definition isASCIIbyte (c : ascii) : bool := (N_of_ascii c <? 128)%N.

Fixpoint isASCII (s : string) : bool :=
  match s with
  | EmptyString => true
  | String c s' => isASCIIbyte c && isASCII s'
  end.

(** The table [asciiSpace]: tab, line feed, vertical tab, form feed,
    carriage return, space. *)
Definition asciiSpace (c : ascii) : bool :=
  let n := N_of_ascii c in
  ((n =? 9) || (n =? 10) || (n =? 11) || (n =? 12) || (n =? 13) || (n =? 32))%N.

Fixpoint Fields (s : string) : list string :=
  match s with
  | EmptyString => []
  | String c s' =>
      if asciiSpace c then Fields s'
      else match s' with
           | EmptyString => [String c ""]
           | String c' _ =>
               if asciiSpace c' then String c "" :: Fields s'
               else match Fields s' with
                    | h :: t => String c h :: t
                    | [] => [String c ""]
                    end
           end
  end.

Definition upperByte (c : ascii) : ascii :=
  let n := N_of_ascii c in
  if ((97 <=? n) && (n <=? 122))%N then ascii_of_N (n - 32) else c.

Fixpoint ToUpper (s : string) : string :=
  match s with
  | EmptyString => ""
  | String c s' => String (upperByte c) (ToUpper s')
  end.

Definition parseCommand (input : string) : Command :=
  match Fields input with
  | [] => {| Name := ""; Args := [] |}
  | name :: args => {| Name := ToUpper name; Args := args |}
  end.

(** [handleConnection]: each line the connection's scanner delivers is
    parsed and run, and the response is written back with a line feed.  A
    panic or an exit ends the process, and the loop with it. *)
Fixpoint handleConnection (inputs : list (Env * string)) (r : RedisStore)
  : Outcome (list string) :=
  match inputs with
  | [] => Returned [] r
  | (e, line) :: rest =>
      match processCommand e r (parseCommand line) with
      | Returned response r' =>
          match handleConnection rest r' with
          | Returned written r'' => Returned ((response +:+ newline) :: written) r''
          | o => o
          end
      | Panicked r' => Panicked r'
      | Exited r' => Exited r'
      end
  end.

(** The command the loop of [main] builds from a line of standard input:
    the line is cut at single spaces, the first part is upper-cased. *)
Definition replCommand (line : string) : Command :=
  match splitOn SP line with
  | [] => {| Name := ""; Args := [] |}
  | p :: args => {| Name := ToUpper p; Args := args |}
  end.

(** A token [strings.Fields] gives back whole: not empty, no white space. *)
Fixpoint hasSpace (s : string) : bool :=
  match s with
  | EmptyString => false
  | String c s' => asciiSpace c || hasSpace s'
  end.

Definition token (s : string) : Prop := s ≠ "" ∧ hasSpace s = false.

(** The operations of a run made of network lines. *)
Definition lineOps (inputs : list (Env * string)) : list Op :=
  map (λ el, OpCommand el.1 (parseCommand el.2)) inputs.

(** ** The first version of the program (redis.go)

    A store of plain strings: no expiration, no lists, no gate on the log;
    GET and SET only; the replay parses each line like a network line and
    applies SET records directly to the map. *)
Module V1.

Record RedisStore := mkRedisStore {
  data : gmap string string;
  aof : string
}.

Definition NewRedisStore : RedisStore := {| data := ∅; aof := "" |}.

Definition writeAOF (command : string) (args : list string) (r : RedisStore)
  : RedisStore :=
  {| data := data r; aof := aof r +:+ aofLine command args |}.

Definition Get (key : string) (r : RedisStore) : string * bool :=
  match data r !! key with
  | None => ("", false)
  | Some val => (val, true)
  end.

Definition Set_ (key val : string) (r : RedisStore) : RedisStore :=
  writeAOF "SET" [key; val] {| data := <[key := val]> (data r); aof := aof r |}.

Definition processCommand (cmd : Command) (rs : RedisStore)
  : string * RedisStore :=
  if String.eqb (Name cmd) "GET" then
    match Args cmd with
    | [k] =>
        let '(val, exists_) := Get k rs in
        if exists_ then (val, rs) else ("nil", rs)
    | _ => ("", rs)
    end
  else if String.eqb (Name cmd) "SET" then
    match Args cmd with
    | k :: v :: _ => ("OK", Set_ k v rs)
    | _ => ("", rs)
    end
  else ("", rs).

(** One turn of the loop of [processAOFCommands]. *)
Definition applyLine (r : RedisStore) (line : string) : RedisStore :=
  if String.eqb line "" then r
  else
    let command := parseCommand line in
    if String.eqb (Name command) "SET" then
      match Args command with
      | k :: v :: _ => {| data := <[k := v]> (data r); aof := aof r |}
      | _ => r
      end
    else r.

Definition processAOFCommands (content : string) (readErr : option error)
    (r : RedisStore) : option error * RedisStore :=
  let '(lines, err) := scanFile content readErr in
  (err, foldl applyLine r lines).

Definition loadAOF (f : File) (r : RedisStore) : option error * RedisStore :=
  match f with
  | OpenFails e => if IsNotExist e then (None, r) else (Some e, r)
  | Opened content readErr => processAOFCommands content readErr r
  end.

(** The commands of a run, one after the other. *)
Definition run (cmds : list Command) (r : RedisStore) : RedisStore :=
  foldl (λ r' cmd, (processCommand cmd r').2) r cmds.

End V1.

(** A line of white space only. *)
Fixpoint allSpace (s : string) : bool :=
  match s with
  | EmptyString => true
  | String c s' => asciiSpace c && allSpace s'
  end.

(** A line a connection's scanner delivers and the log's scanner takes
    back: ASCII, and short of the buffer by the one space [lineOf] may
    add. *)
Definition netLine (line : string) : Prop :=
  isASCII line = true
  ∧ (Z.of_nat (String.length line) < MaxScanTokenSize - 1)%Z.

(** A command of the first version whose record the replay reads back:
    ASCII, arguments that are tokens, a line that fits the scanner. *)
Definition v1Command (cmd : Command) : Prop :=
  isASCII (lineOf cmd) = true
  ∧ Forall token (Args cmd)
  ∧ (Z.of_nat (String.length (lineOf cmd)) < MaxScanTokenSize)%Z.

(** A line of 65536 bytes, one more than the scanner's buffer lets through. *)
Definition longLine : string := N.iter 65536 (String "a") "".
(** * Properties *)

(** ** Reads *)

Lemma isExpired_spec (now : Time) (sv : StoredValue) :
  isExpired now sv = true ↔ (expiration sv ≠ 0 ∧ expiration sv < now)%Z.
Proof.
  unfold isExpired, IsZero, After.
  rewrite andb_true_iff, negb_true_iff, Z.eqb_neq, Z.ltb_lt. reflexivity.
Qed.

(** C4. [Get] reports found=false exactly when the key has no scalar entry,
    or its entry has an expiration set and the current time is strictly
    after it; an entry without expiration is always found, and so is an
    entry whose expiration is the current instant. *)
Theorem Get_found_spec (now : Time) (key : string) (r : RedisStore) :
  ((Get now key r).1.2 = false ↔
     data r !! key = None ∨
     ∃ sv, data r !! key = Some sv ∧
           IsZero (expiration sv) = false ∧ (now > expiration sv)%Z)
  ∧ (∀ sv, data r !! key = Some sv → IsZero (expiration sv) = true →
           (Get now key r).1 = (value sv, true))
  ∧ (∀ sv, data r !! key = Some sv → expiration sv = now →
           (Get now key r).1 = (value sv, true)).
Proof.
  unfold Get. destruct (data r !! key) as [sv|] eqn:E.
  - destruct (isExpired now sv) eqn:X; cbn.
    + apply isExpired_spec in X as [X1 X2]. repeat split.
      * intros _. right. exists sv. unfold IsZero.
        split; [done|]. split; [by apply Z.eqb_neq | lia].
      * intros sv' [= <-] Z0. unfold IsZero in Z0. apply Z.eqb_eq in Z0. done.
      * intros sv' [= <-] Hn. lia.
    + repeat split.
      * done.
      * intros [?|(sv' & [= <-] & Hz & Hn)]; [done|].
        assert (isExpired now sv = true) as Y; [|congruence].
        apply isExpired_spec. unfold IsZero in Hz. apply Z.eqb_neq in Hz. lia.
      * by intros sv' [= <-] _.
      * by intros sv' [= <-] _.
  - cbn. repeat split; [by left | done..].
Qed.

Lemma Get_found_spec_witness :
  (Get 7 "k" (setData {[ "k" := {| value := "v"; expiration := 7%Z |} ]} liveStore)).1
  = ("v", true).
Proof.
  exact (proj2 (proj2 (Get_found_spec 7 "k"
           (setData {[ "k" := {| value := "v"; expiration := 7%Z |} ]} liveStore)))
         {| value := "v"; expiration := 7%Z |} eq_refl eq_refl).
Defined.

(** ** Writes of scalars *)

Lemma writeAOF_data c a r : data (writeAOF c a r) = data r.
Proof. unfold writeAOF. by destruct (writeAOFEnabled r). Qed.

Lemma writeAOF_listData c a r : listData (writeAOF c a r) = listData r.
Proof. unfold writeAOF. by destruct (writeAOFEnabled r). Qed.

Lemma writeAOF_enabled c a r : writeAOFEnabled (writeAOF c a r) = writeAOFEnabled r.
Proof. unfold writeAOF. by destruct (writeAOFEnabled r) eqn:E. Qed.

Lemma writeAOF_off c a r : writeAOFEnabled r = false → writeAOF c a r = r.
Proof. unfold writeAOF. by intros ->. Qed.

Lemma writeAOF_on c a r :
  writeAOFEnabled r = true → aof (writeAOF c a r) = aof r +:+ aofLine c a.
Proof. unfold writeAOF. by intros ->. Qed.

Lemma Get_plain (now : Time) (key v : string) (r : RedisStore) :
  data r !! key = Some (plainValue v) → (Get now key r).1 = (v, true).
Proof. unfold Get. by intros ->. Qed.

(** C6. SET overwrites whatever scalar entry the key had with a new entry
    that carries no expiration: [Get] finds the new value at every later
    time, whatever expiration the key had before. *)
Theorem SET_clears_expiration (e : Env) (r : RedisStore)
    (k v : string) (more : list string) :
  processCommand e r (mkCommand "SET" (k :: v :: more))
    = Returned "OK" (Set_ k (plainValue v) r)
  ∧ data (Set_ k (plainValue v) r) !! k
    = Some {| value := v; expiration := 0%Z |}
  ∧ ∀ later : Time, (Get later k (Set_ k (plainValue v) r)).1 = (v, true).
Proof.
  assert (data (Set_ k (plainValue v) r) !! k = Some (plainValue v)) as H.
  { unfold Set_. rewrite writeAOF_data. cbn. apply lookup_insert_eq. }
  split; [reflexivity|]. split; [exact H|].
  intros later. by apply Get_plain.
Qed.

(** ** Lists *)

Lemma listAt_ListPush key v r :
  listAt (ListPush key v r) key = (listAt r key ++ [v])%list.
Proof. unfold ListPush, listAt at 1. cbn. by rewrite lookup_insert_eq. Qed.

Lemma listAt_pushAll key vs r :
  listAt (pushAll key vs r) key = (listAt r key ++ vs)%list.
Proof.
  revert r. induction vs as [|v vs IH]; intros r; cbn.
  - by rewrite app_nil_r.
  - unfold pushAll in IH. rewrite IH, listAt_ListPush, <- app_assoc. done.
Qed.

Lemma ListPop_cons key v rest r :
  listAt r key = v :: rest →
  ListPop key r = ((v, true), setListData (<[key := rest]> (listData r)) r).
Proof. unfold ListPop. by intros ->. Qed.

Lemma ListPop_nil key r : listAt r key = [] → ListPop key r = (("", false), r).
Proof. unfold ListPop. by intros ->. Qed.

Lemma popN_all key vs r :
  listAt r key = vs →
  ∃ r', popN (length vs) key r = (map (λ v, (v, true)) vs, r')
        ∧ listData r' !! key = (if vs is [] then listData r !! key else Some []).
Proof.
  revert r. induction vs as [|v vs IH]; intros r H; cbn.
  - by exists r.
  - rewrite (ListPop_cons _ _ _ _ H).
    destruct (IH (setListData (<[key := vs]> (listData r)) r)) as (r' & -> & Hl).
    { unfold listAt. cbn. by rewrite lookup_insert_eq. }
    exists r'. split; [done|]. rewrite Hl. cbn. rewrite lookup_insert_eq.
    by destruct vs.
Qed.

(** C7. [ListPush] appends at the tail and [ListPop] removes the head, so
    values pushed on an empty or absent list are popped in push order;
    [ListPop] reports found=false exactly when the list is absent or empty;
    popping the last element leaves the key bound to the empty sequence,
    and the next pop finds nothing. *)
Theorem list_fifo (key : string) (r : RedisStore) :
  (∀ v, listAt (ListPush key v r) key = (listAt r key ++ [v])%list)
  ∧ (∀ v rest, listAt r key = v :: rest →
       (ListPop key r).1 = (v, true) ∧ listAt (ListPop key r).2 key = rest)
  ∧ (∀ vs, listAt r key = [] →
       ∃ r', popN (length vs) key (pushAll key vs r)
               = (map (λ v, (v, true)) vs, r')
             ∧ (ListPop key r').1 = ("", false))
  ∧ ((ListPop key r).1.2 = false ↔
       listData r !! key = None ∨ listData r !! key = Some [])
  ∧ (∀ v, listData r !! key = Some [v] →
       (ListPop key r).1 = (v, true)
       ∧ listData (ListPop key r).2 !! key = Some []
       ∧ ListPop key (ListPop key r).2 = (("", false), (ListPop key r).2)).
Proof.
  split; [intros v; apply listAt_ListPush|].
  split.
  { intros v rest H. rewrite (ListPop_cons _ _ _ _ H). cbn. split; [done|].
    unfold listAt. cbn. by rewrite lookup_insert_eq. }
  split.
  { intros vs H.
    destruct (popN_all key vs (pushAll key vs r)) as (r' & Hp & Hl).
    { by rewrite listAt_pushAll, H. }
    exists r'. split; [done|].
    rewrite ListPop_nil; [done|]. unfold listAt. rewrite Hl.
    destruct vs; [|done]. exact H. }
  split.
  { unfold ListPop, listAt.
    destruct (listData r !! key) as [[|v l]|]; cbn.
    - split; [by right | done].
    - split; [done | by intros [?|?]].
    - split; [by left | done]. }
  intros v H.
  assert (listAt r key = [v]) as H' by (unfold listAt; by rewrite H).
  rewrite (ListPop_cons _ _ _ _ H'). cbn.
  split; [done|]. split; [by rewrite lookup_insert_eq|].
  apply ListPop_nil. unfold listAt. cbn. by rewrite lookup_insert_eq.
Qed.

Lemma list_fifo_witness :
  ∃ r', popN 2 "q" (pushAll "q" ["a"; "b"] liveStore)
          = ([("a", true); ("b", true)], r')
        ∧ (ListPop "q" r').1 = ("", false).
Proof.
  exact (proj1 (proj2 (proj2 (list_fifo "q" liveStore))) ["a"; "b"] eq_refl).
Defined.

(** ** The loop of [HMSet] *)

Lemma HMSet_loop_data key l r :
  data (foldl (hmsetStep key) r l) = foldl (hmsetData key) (data r) l.
Proof.
  revert r. induction l as [|kv l IH]; intros r; [done|].
  cbn. rewrite IH. unfold hmsetStep. by rewrite writeAOF_data.
Qed.

Lemma HMSet_loop_listData key l r :
  listData (foldl (hmsetStep key) r l) = listData r.
Proof.
  revert r. induction l as [|kv l IH]; intros r; [done|].
  cbn. rewrite IH. unfold hmsetStep. by rewrite writeAOF_listData.
Qed.

Lemma HMSet_loop_enabled key l r :
  writeAOFEnabled (foldl (hmsetStep key) r l) = writeAOFEnabled r.
Proof.
  revert r. induction l as [|kv l IH]; intros r; [done|].
  cbn. rewrite IH. unfold hmsetStep. by rewrite writeAOF_enabled.
Qed.

Lemma HMSet_loop_off key l r :
  writeAOFEnabled r = false → aof (foldl (hmsetStep key) r l) = aof r.
Proof.
  revert r. induction l as [|kv l IH]; intros r H; [done|].
  cbn. rewrite IH; unfold hmsetStep.
  - by rewrite writeAOF_off.
  - by rewrite writeAOF_enabled.
Qed.

Lemma append_cons (x : ascii) (a b : string) :
  String x a +:+ b = String x (a +:+ b).
Proof. reflexivity. Qed.

Lemma append_nil_l (b : string) : "" +:+ b = b.
Proof. reflexivity. Qed.

Lemma append_assoc (a b c : string) : (a +:+ b) +:+ c = a +:+ (b +:+ c).
Proof.
  induction a as [|x a IH]; [done|]. rewrite !append_cons. by f_equal.
Qed.

Lemma append_nil_r (a : string) : a +:+ "" = a.
Proof.
  induction a as [|x a IH]; [done|]. rewrite append_cons. by f_equal.
Qed.

Lemma HMSet_loop_on key l r :
  writeAOFEnabled r = true →
  aof (foldl (hmsetStep key) r l)
  = aof r +:+ String.concat "" (map (hmsetRecord key) l).
Proof.
  revert r. induction l as [|kv l IH]; intros r H.
  - cbn. by rewrite append_nil_r.
  - cbn [foldl map]. rewrite IH; unfold hmsetStep.
    + rewrite writeAOF_on by done. cbn [aof setData].
      rewrite append_assoc. f_equal.
      destruct l; cbn; [by rewrite append_nil_r | done].
    + by rewrite writeAOF_enabled.
Qed.

(** ** Frame of the command engine *)

Lemma processCommand_frame (e : Env) (r : RedisStore) (cmd : Command) :
  writeAOFEnabled (storeOf (processCommand e r cmd)) = writeAOFEnabled r
  ∧ listData (storeOf (processCommand e r cmd)) = listData r
  ∧ (writeAOFEnabled r = false → aof (storeOf (processCommand e r cmd)) = aof r).
Proof.
  unfold processCommand, Get, HMGet, Set_, SetWithExpiration, Del, HMSet.
  repeat case_match; simplify_eq; cbn [storeOf];
    rewrite ?writeAOF_enabled, ?writeAOF_listData,
            ?HMSet_loop_enabled, ?HMSet_loop_listData;
    (split; [done|]); (split; [done|]); intros Hoff;
    rewrite ?HMSet_loop_off by done; rewrite ?writeAOF_off by done; done.
Qed.

Lemma replayLines_frame (envs : nat → Env) (lines : list string) :
  ∀ i r,
    writeAOFEnabled (storeOf (replayLines envs i lines r)) = writeAOFEnabled r
    ∧ listData (storeOf (replayLines envs i lines r)) = listData r
    ∧ (writeAOFEnabled r = false →
       aof (storeOf (replayLines envs i lines r)) = aof r).
Proof.
  induction lines as [|line rest IH]; intros i r; [done|].
  cbn [replayLines].
  destruct (splitOn SP line) as [|command [|a args]]; [apply IH..|].
  pose proof (processCommand_frame (envs i) r (mkCommand command (a :: args)))
    as (He & Hl & Ha).
  destruct (processCommand (envs i) r (mkCommand command (a :: args)))
    as [resp r'|r'|r']; cbn [storeOf] in *; [|done..].
  destruct (IH (S i) r') as (He' & Hl' & Ha').
  rewrite He', Hl'. split; [exact He|]. split; [exact Hl|].
  intros Hoff. rewrite Ha' by congruence. by apply Ha.
Qed.

(** C9. Whatever the file holds, a startup replay appends nothing: the
    gate is closed before the first record is applied, every record goes
    through the command engine with the gate closed, and the text written
    to the log when [loadAOF] ends (or stops in a panic or an exit) is the
    text written before it began. *)
Theorem loadAOF_appends_nothing (envs : nat → Env) (f : File) (r : RedisStore) :
  aof (storeOf (loadAOF envs f r)) = aof r.
Proof.
  unfold loadAOF. destruct f as [e|content readErr].
  - by destruct (IsNotExist e).
  - destruct (scanFile content readErr) as [lines err].
    destruct (replayLines_frame envs lines 0 (setEnabled false r))
      as (_ & _ & Ha).
    specialize (Ha eq_refl).
    by destruct (replayLines envs 0 lines (setEnabled false r)).
Qed.

(** ** Hash fields *)

Lemma rangeMap_singleton (o : MapOrder) (f v : string) :
  rangeMap o {[f := v]} = [(f, v)].
Proof.
  unfold rangeMap. apply Permutation_singleton_r.
  rewrite rangeOf_perm. by rewrite map_to_list_singleton.
Qed.

Lemma HMSet_singleton (o : MapOrder) (key f v : string) (r : RedisStore) :
  HMSet o key {[f := v]} r = hmsetStep key r (f, v).
Proof. unfold HMSet. by rewrite rangeMap_singleton. Qed.

(** C10. Hash fields and scalar keys share one namespace: setting field [f]
    of [k] stores an ordinary scalar entry under [k ++ "." ++ f], which a
    plain [Get] of that string finds; a plain [Set] of such a string is
    reported by [HMGet] as field [f] of [k]; and a scalar [Del] of the
    string removes the field. *)
Theorem fields_are_scalars (o : MapOrder) (k f v : string) (r : RedisStore) :
  data (HMSet o k {[f := v]} r) !! (k +:+ "." +:+ f)
    = Some {| value := v; expiration := 0%Z |}
  ∧ (∀ now : Time, (Get now (k +:+ "." +:+ f) (HMSet o k {[f := v]} r)).1 = (v, true))
  ∧ (∀ sv : StoredValue,
       (HMGet k [f] (Set_ (k +:+ "." +:+ f) sv r)).1 = {[f := value sv]})
  ∧ (HMGet k [f] (HMSet o k {[f := v]} r)).1 = {[f := v]}
  ∧ (HMGet k [f] (Del (k +:+ "." +:+ f) (HMSet o k {[f := v]} r))).1 = ∅.
Proof.
  rewrite HMSet_singleton.
  assert (data (hmsetStep k r (f, v)) !! fieldKey k f = Some (plainValue v)) as H.
  { unfold hmsetStep. rewrite writeAOF_data. cbn. apply lookup_insert_eq. }
  split; [exact H|]. split; [intros now0; by apply Get_plain|].
  split.
  { intros sv. unfold HMGet, hmgetStep, Set_. cbn.
    rewrite writeAOF_data. cbn. unfold fieldKey.
    by rewrite lookup_insert_eq, insert_empty. }
  split.
  { unfold HMGet, hmgetStep. cbn. by rewrite H, insert_empty. }
  unfold HMGet, hmgetStep, Del. cbn. rewrite writeAOF_data. cbn.
  unfold fieldKey. by rewrite lookup_delete_eq.
Qed.

(** ** Reads leave the store alone *)

(** C5, as the code has it.  [Get] and [HMGet], and the GET and HMGET
    commands built on them, return the store they were given, log
    included; [Get] reports an expired entry as absent and the entry stays
    in the scalar map. *)
Theorem reads_leave_store (e : Env) (now0 : Time) (key : string)
    (fields args : list string) (r : RedisStore) :
  (Get now0 key r).2 = r
  ∧ (HMGet key fields r).2 = r
  ∧ storeOf (processCommand e r (mkCommand "GET" args)) = r
  ∧ storeOf (processCommand e r (mkCommand "HMGET" args)) = r
  ∧ (∀ sv, data r !! key = Some sv → isExpired now0 sv = true →
       (Get now0 key r).1 = ("", false)
       ∧ data (Get now0 key r).2 !! key = Some sv).
Proof.
  split. { unfold Get. by repeat case_match. }
  split; [done|].
  split.
  { unfold processCommand, Get. cbn. destruct args as [|k [|]]; [done| |done].
    destruct (data r !! k) as [sv|]; [|done].
    by destruct (isExpired (now e) sv). }
  split.
  { unfold processCommand, HMGet. cbn. by destruct args as [|k [|]]. }
  intros sv H X. unfold Get. by rewrite H, X.
Qed.

Lemma reads_leave_store_witness :
  (Get 10 "k" (setData {[ "k" := {| value := "v"; expiration := 5%Z |} ]} liveStore)).1
    = ("", false)
  ∧ data (Get 10 "k"
            (setData {[ "k" := {| value := "v"; expiration := 5%Z |} ]} liveStore)).2
      !! "k" = Some {| value := "v"; expiration := 5%Z |}.
Proof.
  exact (proj2 (proj2 (proj2 (proj2
           (reads_leave_store (mkEnv 10 idOrder) 10 "k" [] []
              (setData {[ "k" := {| value := "v"; expiration := 5%Z |} ]} liveStore)))))
         {| value := "v"; expiration := 5%Z |} eq_refl eq_refl).
Defined.

(** C5, as stated, fails for [HMGet]: an entry that has expired is still
    reported.  EXPIRE of the composite key at time 5, read at time 10. *)
Lemma HMGet_reports_expired_entry :
  ¬ (∀ (now0 : Time) (key field : string) (r : RedisStore) (sv : StoredValue),
       data r !! fieldKey key field = Some sv → isExpired now0 sv = true →
       (HMGet key [field] r).1 !! field = None).
Proof.
  intros H.
  specialize (H 10%Z "h" "f"
    (storeOf (processCommand (mkEnv 5 idOrder) liveStore
                (mkCommand "EXPIRE" ["h.f"; "v"; "0"])))
    {| value := "v"; expiration := 5%Z |} eq_refl eq_refl).
  vm_compute in H. discriminate H.
Qed.

(** ** Short argument lists *)

Lemma collectPairs_parity (l : list string) :
  ∀ m, (Nat.even (length l) = true → is_Some (collectPairs l m))
       ∧ (Nat.even (length l) = false → collectPairs l m = None).
Proof.
  induction l as [l IH] using (induction_ltof1 _ (@length string)).
  unfold ltof in IH. intros m.
  destruct l as [|f [|v rest]]; cbn; [split; [eauto | done] | split; done |].
  apply IH. cbn. lia.
Qed.

(** Commands the guards of [processCommand] turn away: the response is
    empty and the store, log included, is the one given. *)
Lemma short_commands_rejected (e : Env) (r : RedisStore) (k v : string) :
  processCommand e r (mkCommand "SET" []) = Returned "" r
  ∧ processCommand e r (mkCommand "SET" [k]) = Returned "" r
  ∧ processCommand e r (mkCommand "EXPIRE" []) = Returned "" r
  ∧ processCommand e r (mkCommand "EXPIRE" [k]) = Returned "" r
  ∧ processCommand e r (mkCommand "EXPIRE" [k; v]) = Returned "" r
  ∧ processCommand e r (mkCommand "DEL" []) = Returned "" r
  ∧ processCommand e r (mkCommand "GET" []) = Returned "" r
  ∧ processCommand e r (mkCommand "HMSET" []) = Returned "" r
  ∧ processCommand e r (mkCommand "HMSET" [k]) = Returned "" r
  ∧ processCommand e r (mkCommand "HMGET" []) = Returned "" r
  ∧ processCommand e r (mkCommand "HMGET" [k]) = Returned "" r.
Proof. repeat split. Qed.

Lemma EXPIRE_invalid_seconds (e : Env) (r : RedisStore)
    (k v s : string) (more : list string) :
  Atoi s = None →
  processCommand e r (mkCommand "EXPIRE" (k :: v :: s :: more))
  = Returned "ERR invalid expire time" r.
Proof. intros H. unfold processCommand. cbn. by rewrite H. Qed.

(** HMSET with a key and an odd number of further tokens never returns. *)
Lemma HMSET_odd_panics (e : Env) (r : RedisStore) (key : string)
    (rest : list string) :
  Nat.even (length rest) = false →
  processCommand e r (mkCommand "HMSET" (key :: rest)) = Panicked r.
Proof.
  intros H. unfold processCommand. cbn.
  destruct rest as [|a rest]; [done|].
  by rewrite (proj2 (collectPairs_parity (a :: rest) ∅) H).
Qed.

(** C2 at its failing input.  HMSET with a key and an odd number of further
    tokens passes the guard [len(cmd.Args) >= 2] and then reads
    [cmd.Args[i+1]] past the end of the slice: the call panics instead of
    returning, with the store and the log as they were. *)
Theorem HMSET_unpaired_panics (e : Env) (r : RedisStore)
    (key f v f' : string) :
  processCommand e r (mkCommand "HMSET" [key; f]) = Panicked r
  ∧ processCommand e r (mkCommand "HMSET" [key; f; v; f']) = Panicked r.
Proof. split; reflexivity. Qed.

(** ** The effect of a command on the scalar map and on the log *)

Lemma writeAOF_aof c a r :
  aof (writeAOF c a r) = aof r +:+ String.concat "" (logged r [aofLine c a]).
Proof.
  unfold writeAOF, logged. destruct (writeAOFEnabled r); cbn [aof].
  - done.
  - by rewrite append_nil_r.
Qed.

Lemma HMSet_loop_aof key l r :
  aof (foldl (hmsetStep key) r l)
  = aof r +:+ String.concat "" (logged r (map (hmsetRecord key) l)).
Proof.
  unfold logged. destruct (writeAOFEnabled r) eqn:E.
  - by apply HMSet_loop_on.
  - rewrite HMSet_loop_off by done. by rewrite append_nil_r.
Qed.

(** Two different literals matched by the same command name. *)
Ltac name_clash :=
  repeat match goal with
         | H : String.eqb _ _ = true |- _ => apply String.eqb_eq in H
         end;
  congruence.

Lemma processCommand_data (e : Env) (r : RedisStore) (cmd : Command) :
  data (storeOf (processCommand e r cmd)) = dataAfter e cmd (data r).
Proof.
  unfold processCommand, dataAfter, Get, HMGet, Set_, SetWithExpiration, Del, HMSet.
  repeat case_match; simplify_eq; cbn [storeOf];
    rewrite ?HMSet_loop_data, ?writeAOF_data; try done; name_clash.
Qed.

Lemma processCommand_aof (e : Env) (r : RedisStore) (cmd : Command) :
  aof (storeOf (processCommand e r cmd))
  = aof r +:+ String.concat "" (logged r (recordsOf e cmd)).
Proof.
  assert (∀ s : string, s = s +:+ String.concat "" (logged r [])) as Hnil.
  { intros s. unfold logged. destruct (writeAOFEnabled r); by rewrite append_nil_r. }
  unfold processCommand, recordsOf, Get, HMGet, Set_, SetWithExpiration, Del, HMSet.
  repeat case_match; simplify_eq; cbn [storeOf];
    rewrite ?HMSet_loop_aof, ?writeAOF_aof; try done; try apply Hnil;
    name_clash.
Qed.

(** ** Iteration order *)

Lemma fieldKey_inj (key : string) : Inj (=) (=) (fieldKey key).
Proof.
  intros f1 f2 H. unfold fieldKey in H.
  apply (inj (String.app key)) in H. by apply (inj (String.app ".")) in H.
Qed.

Lemma hmsetData_foldl (key : string) (l : list (string * string)) :
  ∀ d, foldl (hmsetData key) d l
       = list_to_map (reverse (hmsetEntry key <$> l)) ∪ d.
Proof.
  induction l as [|kv l IH]; intros d.
  - cbn. by rewrite (left_id_L ∅ (∪)).
  - cbn [foldl]. rewrite IH. rewrite fmap_cons, reverse_cons, list_to_map_app.
    rewrite <- (assoc_L (∪)). f_equal.
    unfold hmsetData, hmsetEntry.
    change (list_to_map [(fieldKey key kv.1, plainValue kv.2)])
      with (<[fieldKey key kv.1 := plainValue kv.2]> (∅ : gmap string StoredValue)).
    rewrite insert_empty. by rewrite <- insert_union_singleton_l.
Qed.

Lemma hmsetData_foldl_perm (key : string) (l1 l2 : list (string * string)) d :
  NoDup l1.*1 → l1 ≡ₚ l2 →
  foldl (hmsetData key) d l1 = foldl (hmsetData key) d l2.
Proof.
  intros Hnd Hp. rewrite !hmsetData_foldl. f_equal.
  apply list_to_map_proper.
  - rewrite reverse_Permutation.
    rewrite <- list_fmap_compose.
    assert ((fst ∘ hmsetEntry key) <$> l1 = fieldKey key <$> l1.*1) as ->.
    { by rewrite <- list_fmap_compose. }
    apply NoDup_fmap_2; [apply fieldKey_inj | done].
  - by rewrite !reverse_Permutation, Hp.
Qed.

Lemma rangeMap_perm (o1 o2 : MapOrder) (m : gmap string string) :
  rangeMap o1 m ≡ₚ rangeMap o2 m.
Proof. unfold rangeMap. by rewrite !rangeOf_perm. Qed.

Lemma rangeMap_NoDup (o : MapOrder) (m : gmap string string) :
  NoDup (rangeMap o m).*1.
Proof.
  unfold rangeMap. rewrite rangeOf_perm. apply NoDup_fst_map_to_list.
Qed.

Lemma dataAfter_order (t : Time) (o1 o2 : MapOrder) cmd d :
  dataAfter (mkEnv t o1) cmd d = dataAfter (mkEnv t o2) cmd d.
Proof.
  unfold dataAfter. repeat case_match; try done. cbn [order].
  apply hmsetData_foldl_perm; [apply rangeMap_NoDup | apply rangeMap_perm].
Qed.

Lemma recordsOf_order (t : Time) (o1 o2 : MapOrder) cmd :
  recordsOf (mkEnv t o1) cmd ≡ₚ recordsOf (mkEnv t o2) cmd.
Proof.
  unfold recordsOf. repeat case_match; try done. cbn [order].
  apply fmap_Permutation, rangeMap_perm.
Qed.


(** C3, as stated, fails: the same HMSET against the same store writes its
    two records in one order under one iteration order of the [values] map
    and in the other order under another. *)
Lemma HMSET_log_order_varies :
  ¬ (∀ (t : Time) (o1 o2 : MapOrder) (r : RedisStore) (cmd : Command),
       responseOf (processCommand (mkEnv t o1) r cmd)
         = responseOf (processCommand (mkEnv t o2) r cmd)
       ∧ aof (storeOf (processCommand (mkEnv t o1) r cmd))
         = aof (storeOf (processCommand (mkEnv t o2) r cmd))).
Proof.
  intros H.
  destruct (H 0%Z idOrder revOrder liveStore
              (mkCommand "HMSET" ["h"; "f1"; "v1"; "f2"; "v2"])) as [_ Hlog].
  vm_compute in Hlog. discriminate Hlog.
Qed.

(** The same holds for the response of HMGET over two present fields. *)
Lemma HMGET_response_order_varies :
  responseOf (processCommand (mkEnv 0 idOrder)
    (setData {[ "h.f1" := plainValue "v1"; "h.f2" := plainValue "v2" ]} liveStore)
    (mkCommand "HMGET" ["h"; "f1"; "f2"])) = Some "[f1 v1 f2 v2]"
  ∧ responseOf (processCommand (mkEnv 0 revOrder)
    (setData {[ "h.f1" := plainValue "v1"; "h.f2" := plainValue "v2" ]} liveStore)
    (mkCommand "HMGET" ["h"; "f1"; "f2"])) = Some "[f2 v2 f1 v1]".
Proof. split; vm_compute; reflexivity. Qed.

Lemma sameEnding_refl {A} (o : Outcome A) : sameEnding o o.
Proof. by destruct o. Qed.

Lemma processCommand_order_ending (t : Time) (o1 o2 : MapOrder)
    (r : RedisStore) (cmd : Command) :
  sameEnding (processCommand (mkEnv t o1) r cmd) (processCommand (mkEnv t o2) r cmd)
  ∧ (responseOf (processCommand (mkEnv t o1) r cmd)
       = responseOf (processCommand (mkEnv t o2) r cmd)
     ∨ ∃ s1 s2,
         responseOf (processCommand (mkEnv t o1) r cmd) = Some s1
         ∧ responseOf (processCommand (mkEnv t o2) r cmd) = Some s2
         ∧ samePairs s1 s2)
  ∧ (Name cmd ≠ "HMSET" → Name cmd ≠ "HMGET" →
     processCommand (mkEnv t o1) r cmd = processCommand (mkEnv t o2) r cmd).
Proof.
  unfold processCommand. cbn [now order].
  assert (∀ o : Outcome string,
    sameEnding o o
    ∧ (responseOf o = responseOf o
       ∨ ∃ s1 s2, responseOf o = Some s1 ∧ responseOf o = Some s2
                  ∧ samePairs s1 s2)
    ∧ (Name cmd ≠ "HMSET" → Name cmd ≠ "HMGET" → o = o)) as Hsame.
  { intros o. split; [apply sameEnding_refl|]. split; [by left | done]. }
  destruct (String.eqb (Name cmd) "GET"); [apply Hsame|].
  destruct (String.eqb (Name cmd) "SET"); [apply Hsame|].
  destruct (String.eqb (Name cmd) "EXPIRE"); [apply Hsame|].
  destruct (String.eqb (Name cmd) "DEL"); [apply Hsame|].
  destruct (String.eqb_spec (Name cmd) "HMSET") as [Hn|_].
  { split; [|split; [|done]].
    - by repeat case_match.
    - left. by repeat case_match. }
  destruct (String.eqb_spec (Name cmd) "HMGET") as [Hn|_].
  { split; [|split; [|done]].
    - by repeat case_match.
    - destruct (Args cmd) as [|key [|f fields]]; [by left..|].
      right. cbn [HMGet responseOf]. do 2 eexists.
      split; [done|]. split; [done|].
      eexists _, _. split; [|split; reflexivity]. apply rangeMap_perm. }
  apply Hsame.
Qed.

Lemma processCommand_order_log (t : Time) (o1 o2 : MapOrder)
    (r : RedisStore) (cmd : Command) :
  Name cmd ≠ "HMSET" →
  aof (storeOf (processCommand (mkEnv t o1) r cmd))
  = aof (storeOf (processCommand (mkEnv t o2) r cmd)).
Proof.
  intros Hn. rewrite !processCommand_aof. do 2 f_equal.
  unfold recordsOf. apply String.eqb_neq in Hn. by rewrite Hn.
Qed.

Lemma processCommand_order_response (t : Time) (o1 o2 : MapOrder)
    (r : RedisStore) (cmd : Command) :
  Name cmd ≠ "HMGET" →
  responseOf (processCommand (mkEnv t o1) r cmd)
  = responseOf (processCommand (mkEnv t o2) r cmd).
Proof.
  intros Hn. apply String.eqb_neq in Hn. unfold processCommand.
  rewrite Hn. cbn [now order].
  destruct (String.eqb (Name cmd) "GET"); [done|].
  destruct (String.eqb (Name cmd) "SET"); [done|].
  destruct (String.eqb (Name cmd) "EXPIRE"); [done|].
  destruct (String.eqb (Name cmd) "DEL"); [done|].
  destruct (String.eqb (Name cmd) "HMSET"); [|done].
  destruct (Args cmd) as [|key [|a rest]]; [done..|].
  by destruct (collectPairs (a :: rest) ∅).
Qed.

(** C3, as the code has it.  At one clock reading, two executions of a
    command against the same store end the same way and leave the same
    scalar map, list map and gate.  The log differs only for HMSET: every
    other command appends the same text, and an HMSET with complete pairs
    appends, in each execution, the records [HMSET key field value] of the
    collected pairs, one per field, each execution in its own order of
    those pairs (nothing while the gate is closed); an HMSET that collects
    no pairs does the same in both.  The response differs only for HMGET,
    which formats the field/value pairs of what [HMGet] returned, each
    execution in its own order of those pairs.  For every command other
    than HMSET and HMGET the two executions are equal outright. *)
Theorem processCommand_deterministic_up_to_order (t : Time) (o1 o2 : MapOrder)
    (r : RedisStore) (cmd : Command) :
  sameEnding (processCommand (mkEnv t o1) r cmd) (processCommand (mkEnv t o2) r cmd)
  ∧ data (storeOf (processCommand (mkEnv t o1) r cmd))
    = data (storeOf (processCommand (mkEnv t o2) r cmd))
  ∧ listData (storeOf (processCommand (mkEnv t o1) r cmd))
    = listData (storeOf (processCommand (mkEnv t o2) r cmd))
  ∧ writeAOFEnabled (storeOf (processCommand (mkEnv t o1) r cmd))
    = writeAOFEnabled (storeOf (processCommand (mkEnv t o2) r cmd))
  ∧ (Name cmd ≠ "HMSET" →
     aof (storeOf (processCommand (mkEnv t o1) r cmd))
     = aof (storeOf (processCommand (mkEnv t o2) r cmd)))
  ∧ (∀ (key a : string) (rest : list string) (values : gmap string string),
       Name cmd = "HMSET" → Args cmd = key :: a :: rest →
       collectPairs (a :: rest) ∅ = Some values →
       ∃ p1 p2 : list (string * string),
         p1 ≡ₚ map_to_list values ∧ p2 ≡ₚ map_to_list values
         ∧ aof (storeOf (processCommand (mkEnv t o1) r cmd))
           = aof r +:+ String.concat ""
               (if writeAOFEnabled r
                then map (λ kv, aofLine "HMSET" [key; kv.1; kv.2]) p1
                else [])
         ∧ aof (storeOf (processCommand (mkEnv t o2) r cmd))
           = aof r +:+ String.concat ""
               (if writeAOFEnabled r
                then map (λ kv, aofLine "HMSET" [key; kv.1; kv.2]) p2
                else []))
  ∧ (Name cmd = "HMSET" →
     (∀ (key a : string) (rest : list string),
        Args cmd = key :: a :: rest → collectPairs (a :: rest) ∅ = None) →
     processCommand (mkEnv t o1) r cmd = processCommand (mkEnv t o2) r cmd)
  ∧ (Name cmd ≠ "HMGET" →
     responseOf (processCommand (mkEnv t o1) r cmd)
     = responseOf (processCommand (mkEnv t o2) r cmd))
  ∧ (∀ (key f : string) (fields : list string),
       Name cmd = "HMGET" → Args cmd = key :: f :: fields →
       ∃ p1 p2 : list (string * string),
         p1 ≡ₚ map_to_list (HMGet key (f :: fields) r).1
         ∧ p2 ≡ₚ map_to_list (HMGet key (f :: fields) r).1
         ∧ processCommand (mkEnv t o1) r cmd
           = Returned (formatSlice (flattenPairs p1)) r
         ∧ processCommand (mkEnv t o2) r cmd
           = Returned (formatSlice (flattenPairs p2)) r)
  ∧ (Name cmd ≠ "HMSET" → Name cmd ≠ "HMGET" →
     processCommand (mkEnv t o1) r cmd = processCommand (mkEnv t o2) r cmd).
Proof.
  destruct (processCommand_order_ending t o1 o2 r cmd) as (He & _ & Heq).
  destruct (processCommand_frame (mkEnv t o1) r cmd) as (Hf1 & Hl1 & _).
  destruct (processCommand_frame (mkEnv t o2) r cmd) as (Hf2 & Hl2 & _).
  split; [exact He|].
  split; [rewrite !processCommand_data; apply dataAfter_order|].
  split; [congruence|]. split; [congruence|].
  split; [apply processCommand_order_log|].
  split.
  { intros key a rest values Hn Ha Hc. destruct cmd as [name args].
    cbn [Name Args] in *. subst name args.
    exists (rangeMap o1 values), (rangeMap o2 values).
    split; [apply rangeOf_perm|]. split; [apply rangeOf_perm|].
    assert (∀ o, processCommand (mkEnv t o) r (mkCommand "HMSET" (key :: a :: rest))
                 = Returned "OK" (HMSet o key values r)) as Hrun.
    { intros o. unfold processCommand.
      cbn [Name Args String.eqb Ascii.eqb Bool.eqb order]. by rewrite Hc. }
    rewrite !Hrun. cbn [storeOf]. unfold HMSet.
    split; apply HMSet_loop_aof. }
  split.
  { intros Hn Hc. destruct cmd as [name args]. cbn [Name Args] in *. subst name.
    unfold processCommand. cbn [Name Args String.eqb Ascii.eqb Bool.eqb order].
    destruct args as [|key [|a rest]]; [done..|].
    by rewrite (Hc key a rest eq_refl). }
  split; [apply processCommand_order_response|].
  split; [|exact Heq].
  intros key f fields Hn Ha. destruct cmd as [name args].
  cbn [Name Args] in *. subst name args.
  exists (rangeMap o1 (HMGet key (f :: fields) r).1),
         (rangeMap o2 (HMGet key (f :: fields) r).1).
  split; [apply rangeOf_perm|]. split; [apply rangeOf_perm|].
  split; reflexivity.
Qed.

Lemma processCommand_deterministic_up_to_order_witness :
  ∃ p1 p2 : list (string * string),
    p1 ≡ₚ map_to_list ({[ "f1" := "v1"; "f2" := "v2" ]} : gmap string string)
    ∧ p2 ≡ₚ map_to_list ({[ "f1" := "v1"; "f2" := "v2" ]} : gmap string string)
    ∧ aof (storeOf (processCommand (mkEnv 3 idOrder) liveStore
                      (mkCommand "HMSET" ["h"; "f1"; "v1"; "f2"; "v2"])))
      = aof liveStore +:+ String.concat ""
          (if writeAOFEnabled liveStore
           then map (λ kv, aofLine "HMSET" ["h"; kv.1; kv.2]) p1
           else [])
    ∧ aof (storeOf (processCommand (mkEnv 3 revOrder) liveStore
                      (mkCommand "HMSET" ["h"; "f1"; "v1"; "f2"; "v2"])))
      = aof liveStore +:+ String.concat ""
          (if writeAOFEnabled liveStore
           then map (λ kv, aofLine "HMSET" ["h"; kv.1; kv.2]) p2
           else []).
Proof.
  apply (proj1 (proj2 (proj2 (proj2 (proj2 (proj2
           (processCommand_deterministic_up_to_order 3 idOrder revOrder liveStore
              (mkCommand "HMSET" ["h"; "f1"; "v1"; "f2"; "v2"])))))))
           "h" "f1" ["v1"; "f2"; "v2"]);
    [reflexivity | reflexivity | vm_compute; reflexivity].
Defined.

(** ** Replay: lines passed over, and errors *)

(** The store [main] serves from when the file is new. *)
Lemma liveStore_startup (envs : nat → Env) :
  loadAOF envs (Opened "" None) NewRedisStore = Returned None liveStore.
Proof. reflexivity. Qed.

Lemma processCommand_unrecognized (e : Env) (r : RedisStore) (cmd : Command) :
  recognized (Name cmd) = false → processCommand e r cmd = Returned "" r.
Proof.
  unfold recognized, processCommand. intros H.
  repeat (apply orb_false_elim in H as [H ?]).
  by repeat match goal with Hn : String.eqb _ _ = false |- _ => rewrite Hn; clear Hn end.
Qed.

Lemma replayLines_skip (envs : nat → Env) (i : nat) (line : string)
    (rest : list string) (r : RedisStore) :
  skippedLine line →
  replayLines envs i (line :: rest) r = replayLines envs (S i) rest r.
Proof.
  unfold skippedLine, blankLine, unparseableLine, unrecognizedLine.
  intros H. cbn [replayLines].
  destruct (splitOn SP line) as [|command [|a args]] eqn:E; [done..|].
  destruct H as [->|[H|H]].
  - discriminate E.
  - cbn in H. lia.
  - by rewrite processCommand_unrecognized.
Qed.

Lemma replayLines_all_skipped (envs : nat → Env) (lines : list string) :
  Forall skippedLine lines →
  ∀ i r, replayLines envs i lines r = Returned tt r.
Proof.
  induction 1 as [|line rest Hl _ IH]; intros i r; [done|].
  rewrite replayLines_skip by done. apply IH.
Qed.

Lemma scanTokens_error (raw : list string) (readErr : option error) (e : error) :
  (scanTokens raw readErr).2 = Some e →
  readErr = Some e
  ∨ (e = ErrTooLong
     ∧ ∃ l, l ∈ raw ∧ (MaxScanTokenSize ≤ Z.of_nat (String.length l))%Z).
Proof.
  induction raw as [|l raw IH]; cbn [scanTokens].
  - by left.
  - destruct (MaxScanTokenSize <=? Z.of_nat (String.length l))%Z eqn:E.
    + intros [= <-]. right. split; [done|]. exists l.
      split; [by left | by apply Z.leb_le].
    + destruct (scanTokens raw readErr) as [ts e'] eqn:S. cbn.
      intros H. destruct (IH H) as [?|(-> & l' & Hin & Hlen)]; [by left|].
      right. split; [done|]. exists l'. split; [by right | done].
Qed.

Lemma scanTokens_long (raw : list string) (readErr : option error) :
  Exists (λ l, (MaxScanTokenSize ≤ Z.of_nat (String.length l))%Z) raw →
  (scanTokens raw readErr).2 = Some ErrTooLong.
Proof.
  induction 1 as [l raw Hl|l raw _ IH]; cbn [scanTokens].
  - apply Z.leb_le in Hl. by rewrite Hl.
  - destruct (MaxScanTokenSize <=? Z.of_nat (String.length l))%Z; [done|].
    by destruct (scanTokens raw readErr).
Qed.

Lemma scanTokens_short (raw : list string) (readErr : option error) :
  Forall (λ l, (Z.of_nat (String.length l) < MaxScanTokenSize)%Z) raw →
  (scanTokens raw readErr).2 = readErr.
Proof.
  induction 1 as [|l raw Hl _ IH]; cbn [scanTokens]; [done|].
  destruct (MaxScanTokenSize <=? Z.of_nat (String.length l))%Z eqn:E;
    [apply Z.leb_le in E; lia|].
  by destruct (scanTokens raw readErr).
Qed.

(** C8, as the code has it.  When the file does not exist the replay
    succeeds and leaves the new store empty.  When the file opens, a blank
    line, a line with fewer than two space-separated parts and a line whose
    first part is none of the command names are passed over: the loop goes
    on with the next line and the store it had, and a file of such lines
    only leaves the store as it was.  [loadAOF] returns an error only when
    opening failed for a reason other than the file's absence, or when the
    scanner reports one; and the scanner reports [ErrTooLong] as soon as a
    line is beyond its buffer, on a file read to its end without failure
    too, and otherwise the error of the failed read, if any. *)
Theorem loadAOF_tolerance (envs : nat → Env) :
  loadAOF envs (OpenFails ErrNotExist) NewRedisStore = Returned None NewRedisStore
  ∧ (∀ i line rest r, skippedLine line →
       replayLines envs i (line :: rest) r = replayLines envs (S i) rest r)
  ∧ (∀ content readErr r,
       Forall skippedLine (scanFile content readErr).1 →
       loadAOF envs (Opened content readErr) r
       = Returned (scanFile content readErr).2 (setEnabled true r))
  ∧ (∀ f r e r',
       loadAOF envs f r = Returned (Some e) r' →
       (f = OpenFails e ∧ e ≠ ErrNotExist)
       ∨ ∃ content readErr,
           f = Opened content readErr
           ∧ (readErr = Some e
              ∨ (e = ErrTooLong
                 ∧ ∃ l, l ∈ rawLines content
                        ∧ (MaxScanTokenSize ≤ Z.of_nat (String.length l))%Z)))
  ∧ (∀ e r,
       loadAOF envs (OpenFails e) r
       = Returned (if IsNotExist e then None else Some e) (setEnabled false r))
  ∧ (∀ content readErr r err r',
       loadAOF envs (Opened content readErr) r = Returned err r' →
       (Exists (λ l, (MaxScanTokenSize ≤ Z.of_nat (String.length l))%Z)
               (rawLines content) → err = Some ErrTooLong)
       ∧ (Forall (λ l, (Z.of_nat (String.length l) < MaxScanTokenSize)%Z)
                 (rawLines content) → err = readErr)).
Proof.
  split; [done|]. split; [intros; by apply replayLines_skip|]. split.
  { intros content readErr r H. unfold loadAOF.
    destruct (scanFile content readErr) as [lines err]. cbn [fst snd] in *.
    by rewrite replayLines_all_skipped. }
  split.
  { intros f r e r' H. unfold loadAOF in H. destruct f as [e0|content readErr].
    + left. destruct e0; cbn in H; by simplify_eq.
    + right. exists content, readErr. split; [done|].
      destruct (scanFile content readErr) as [lines err] eqn:S.
      destruct (replayLines envs 0 lines (setEnabled false r)); simplify_eq.
      apply scanTokens_error. unfold scanFile in S. by rewrite S. }
  split.
  { intros e r. unfold loadAOF. by destruct (IsNotExist e). }
  intros content readErr r err r' H. unfold loadAOF in H.
  destruct (scanFile content readErr) as [lines err0] eqn:S.
  assert (err = err0) as ->.
  { by destruct (replayLines envs 0 lines (setEnabled false r)); simplify_eq. }
  unfold scanFile in S. split; intros Hl.
  - pose proof (scanTokens_long _ readErr Hl) as Hs. by rewrite S in Hs.
  - pose proof (scanTokens_short _ readErr Hl) as Hs. by rewrite S in Hs.
Qed.

Lemma loadAOF_tolerance_witness :
  loadAOF (λ _, mkEnv 0 idOrder)
    (Opened ("" +:+ newline +:+ "EXIT" +:+ newline +:+ "LPUSH q a" +:+ newline) None)
    NewRedisStore
  = Returned None (setEnabled true NewRedisStore).
Proof.
  refine (proj1 (proj2 (proj2 (loadAOF_tolerance (λ _, mkEnv 0 idOrder))))
            ("" +:+ newline +:+ "EXIT" +:+ newline +:+ "LPUSH q a" +:+ newline)
            None NewRedisStore _).
  change (Forall skippedLine [""; "EXIT"; "LPUSH q a"]).
  apply Forall_cons_2; [by left|].
  apply Forall_cons_2; [right; left; vm_compute; lia|].
  apply Forall_cons_2; [right; right; vm_compute; reflexivity|].
  apply Forall_nil_2.
Defined.

(** C8, as stated, fails: a file that opens and is read to its end without
    any failure, holding one line of 65536 bytes, makes [loadAOF] return
    the scanner's [ErrTooLong]. *)
Lemma loadAOF_error_on_readable_file :
  ¬ (∀ (envs : nat → Env) (f : File) (r r' : RedisStore) (e : error),
       loadAOF envs f r = Returned (Some e) r' →
       (∃ e', f = OpenFails e')
       ∨ (∃ content e', f = Opened content (Some e'))).
Proof.
  intros H.
  destruct (H (λ _, mkEnv 0 idOrder) (Opened longLine None) NewRedisStore
              (setEnabled true NewRedisStore) ErrTooLong)
    as [[e' He]|(content & e' & He)]; [|discriminate He..].
  vm_compute. reflexivity.
Qed.

(** ** Strings: joining, splitting, scanning *)

Lemma length_append (a b : string) :
  String.length (a +:+ b) = (String.length a + String.length b)%nat.
Proof.
  induction a as [|x a IH]; [done|]. rewrite append_cons. cbn. by rewrite IH.
Qed.

Lemma hasChar_append (c : ascii) (a b : string) :
  hasChar c (a +:+ b) = hasChar c a || hasChar c b.
Proof.
  induction a as [|x a IH]; [done|]. rewrite append_cons. cbn.
  by rewrite IH, orb_assoc.
Qed.

Lemma Join_cons2 (x y : string) (l : list string) (sep : string) :
  Join (x :: y :: l) sep = x +:+ sep +:+ Join (y :: l) sep.
Proof. reflexivity. Qed.

Lemma hasChar_Join (c : ascii) (l : list string) :
  hasChar c " " = false → Forall (λ a, hasChar c a = false) l →
  hasChar c (Join l " ") = false.
Proof.
  intros Hsp. induction 1 as [|x l Hx Hl IH]; [done|].
  destruct l as [|y l]; [done|].
  rewrite Join_cons2, !hasChar_append, Hx, Hsp. exact IH.
Qed.

Lemma splitOn_no_sep (c : ascii) (s : string) :
  hasChar c s = false → splitOn c s = [s].
Proof.
  induction s as [|x s IH]; [done|]. cbn.
  intros [Hx Hs]%orb_false_elim. rewrite Hx, IH; done.
Qed.

Lemma splitOn_app (c : ascii) (s t : string) :
  hasChar c s = false → splitOn c (s +:+ String c t) = s :: splitOn c t.
Proof.
  induction s as [|x s IH].
  - intros _. rewrite append_nil_l. cbn. by rewrite Ascii.eqb_refl.
  - cbn [hasChar]. intros [Hx Hs]%orb_false_elim.
    rewrite append_cons. cbn [splitOn]. rewrite Hx, IH; done.
Qed.

Lemma splitOn_Join (x : string) (xs : list string) :
  Forall (λ a, hasChar SP a = false) (x :: xs) →
  splitOn SP (Join (x :: xs) " ") = x :: xs.
Proof.
  revert x. induction xs as [|y xs IH]; intros x H.
  - apply splitOn_no_sep. by inversion H.
  - rewrite Join_cons2. inversion H as [|? ? Hx Hrest]; subst.
    change (" " +:+ Join (y :: xs) " ") with (String SP (Join (y :: xs) " ")).
    rewrite splitOn_app by done. by rewrite IH.
Qed.

Lemma recLine_Join (command a : string) (args : list string) :
  recLine command (a :: args) = Join (command :: a :: args) " ".
Proof. reflexivity. Qed.

Lemma aofLine_recLine (command : string) (args : list string) :
  aofLine command args = terminated (recLine command args).
Proof.
  unfold aofLine, terminated, recLine. by rewrite !append_assoc.
Qed.

Lemma concat_cons (x : string) (l : list string) :
  String.concat "" (x :: l) = x +:+ String.concat "" l.
Proof. destruct l; cbn [String.concat]; [by rewrite append_nil_r | done]. Qed.

Lemma concat_app (l1 l2 : list string) :
  String.concat "" (l1 ++ l2) = String.concat "" l1 +:+ String.concat "" l2.
Proof.
  induction l1 as [|x l1 IH]; [done|].
  rewrite <- app_comm_cons, !concat_cons, IH. by rewrite append_assoc.
Qed.

Lemma splitOn_terminated (ls : list string) :
  Forall (λ l, hasChar LF l = false) ls →
  splitOn LF (String.concat "" (terminated <$> ls)) = (ls ++ [""])%list.
Proof.
  induction 1 as [|l ls Hl _ IH]; [done|].
  rewrite fmap_cons, concat_cons. unfold terminated at 1, newline.
  rewrite append_assoc, append_cons, append_nil_l.
  rewrite splitOn_app by done. by rewrite IH.
Qed.

Lemma rawLines_terminated (ls : list string) :
  Forall (λ l, hasChar LF l = false) ls →
  rawLines (String.concat "" (terminated <$> ls)) = ls.
Proof.
  intros H. unfold rawLines. rewrite splitOn_terminated by done.
  rewrite last_snoc. apply removelast_last.
Qed.

Lemma dropCR_id (s : string) : hasChar CR s = false → dropCR s = s.
Proof.
  induction s as [|x s IH]; [done|]. cbn [hasChar].
  intros [Hx Hs]%orb_false_elim. cbn [dropCR].
  destruct s as [|y s]; [by rewrite Hx|]. by rewrite IH.
Qed.

Lemma scanFile_terminated (ls : list string) :
  Forall goodLine ls →
  scanFile (String.concat "" (terminated <$> ls)) None = (ls, None).
Proof.
  intros H. unfold scanFile. rewrite rawLines_terminated.
  - induction H as [|l ls (_ & Hcr & Hlen) _ IH]; [done|].
    cbn [scanTokens].
    destruct (MaxScanTokenSize <=? Z.of_nat (String.length l))%Z eqn:E;
      [apply Z.leb_le in E; lia|].
    by rewrite IH, dropCR_id.
  - eapply Forall_impl; [exact H|]. by intros l (? & _).
Qed.

(** ** The records of a command are lines a scan gives back *)

Lemma recordsOf_lines (e : Env) (cmd : Command) :
  recordsOf e cmd = terminated <$> recordLinesOf e cmd.
Proof.
  unfold recordsOf, recordLinesOf.
  repeat case_match; try done; cbn [fmap list_fmap];
    rewrite ?aofLine_recLine; try done.
  rewrite <- list_fmap_compose. apply list_fmap_ext.
  intros i kv _. unfold hmsetRecord. cbn. by rewrite aofLine_recLine.
Qed.

Lemma joinLen_cons2 (x y : string) (l : list string) :
  joinLen (x :: y :: l) = (String.length x + 1 + joinLen (y :: l))%nat.
Proof.
  unfold joinLen. rewrite Join_cons2, !length_append. cbn. lia.
Qed.

Lemma joinLen_singleton (x : string) : joinLen [x] = String.length x.
Proof. reflexivity. Qed.

Lemma joinLen_cons (x : string) (l : list string) :
  (String.length x ≤ joinLen (x :: l))%nat
  ∧ (joinLen l ≤ joinLen (x :: l))%nat.
Proof.
  destruct l as [|y l]; [unfold joinLen; cbn; lia|].
  rewrite joinLen_cons2. lia.
Qed.

Lemma length_recLine (command : string) (args : list string) :
  String.length (recLine command args)
  = (String.length command + 1 + joinLen args)%nat.
Proof. unfold recLine, joinLen. rewrite !length_append. cbn. lia. Qed.

Lemma length_lineOf (cmd : Command) :
  String.length (lineOf cmd)
  = (String.length (Name cmd) + 1 + joinLen (Args cmd))%nat.
Proof. unfold lineOf, joinLen. rewrite !length_append. cbn. lia. Qed.

Lemma plain_recLine (command : string) (args : list string) (n : nat) :
  plainArg command → Forall plainArg args →
  String.length (recLine command args) = n →
  (Z.of_nat n < MaxScanTokenSize)%Z →
  goodLine (recLine command args).
Proof.
  intros (_ & Hlf & Hcr) Hargs <- Hn. unfold goodLine.
  assert (∀ c, hasChar c " " = false → hasChar c command = false →
               Forall (λ a, hasChar c a = false) args →
               hasChar c (recLine command args) = false) as Hc.
  { intros c Hsp Hcmd Ha. unfold recLine.
    rewrite !hasChar_append, Hcmd, Hsp. by apply hasChar_Join. }
  split; [|split; [|done]].
  - apply Hc; [done..|]. eapply Forall_impl; [exact Hargs|]. by intros a (_ & ? & _).
  - apply Hc; [done..|]. eapply Forall_impl; [exact Hargs|]. by intros a (_ & _ & ?).
Qed.

(** Every pair the HMSET loop collects is made of two tokens of the
    command, next to each other. *)
Lemma collectPairs_elems (l : list string) :
  ∀ m m' f v,
    collectPairs l m = Some m' → m' !! f = Some v →
    m !! f = Some v
    ∨ (f ∈ l ∧ v ∈ l
       ∧ (String.length f + 1 + String.length v ≤ joinLen l)%nat).
Proof.
  induction l as [l IH] using (induction_ltof1 _ (@length string)).
  unfold ltof in IH. intros m m' f v Hc Hl.
  destruct l as [|f0 [|v0 rest]]; cbn in Hc; [left; congruence | done |].
  destruct (IH rest ltac:(cbn; lia) _ _ _ _ Hc Hl) as [Hi|(Hf & Hv & Hlen)].
  - destruct (decide (f0 = f)) as [->|Hne].
    + rewrite lookup_insert_eq in Hi. injection Hi as ->.
      right. split; [by left|]. split; [right; by left|].
      rewrite joinLen_cons2. pose proof (joinLen_cons v rest). lia.
    + rewrite lookup_insert_ne in Hi by done. by left.
  - right. split; [by do 2 right|]. split; [by do 2 right|].
    pose proof (joinLen_cons f0 (v0 :: rest)).
    pose proof (joinLen_cons v0 rest). lia.
Qed.

Lemma plainArg_literal (s : string) :
  hasChar SP s || hasChar LF s || hasChar CR s = false → plainArg s.
Proof.
  intros H. apply orb_false_elim in H as [H ?].
  apply orb_false_elim in H as [? ?]. by repeat split.
Qed.

Ltac plain_args :=
  repeat (apply Forall_cons_2; [assumption|]); apply Forall_nil_2.

Lemma recordLinesOf_good (e : Env) (cmd : Command) :
  wireCommand cmd → Forall goodLine (recordLinesOf e cmd).
Proof.
  intros [Hargs Hlen]. rewrite length_lineOf in Hlen.
  unfold recordLinesOf.
  destruct (String.eqb_spec (Name cmd) "SET") as [Hn|_].
  { destruct (Args cmd) as [|k [|v more]] eqn:E; [done..|].
    apply Forall_cons in Hargs as [Hk Hargs].
    apply Forall_cons in Hargs as [Hv _].
    apply Forall_singleton.
    eapply plain_recLine; [by apply plainArg_literal | plain_args
                          | apply length_recLine |].
    rewrite Hn in Hlen. rewrite !joinLen_cons2, ?joinLen_singleton in *.
    pose proof (joinLen_cons v more). cbn [String.length] in *. lia. }
  destruct (String.eqb_spec (Name cmd) "EXPIRE") as [Hn|_].
  { destruct (Args cmd) as [|k [|v [|s more]]] eqn:E; [done..|].
    destruct (Atoi s); [|done].
    apply Forall_cons in Hargs as [Hk Hargs].
    apply Forall_cons in Hargs as [Hv _].
    apply Forall_singleton.
    eapply plain_recLine; [by apply plainArg_literal | plain_args
                          | apply length_recLine |].
    rewrite Hn in Hlen. rewrite !joinLen_cons2, ?joinLen_singleton in *.
    cbn [String.length] in *. lia. }
  destruct (String.eqb_spec (Name cmd) "DEL") as [Hn|_].
  { destruct (Args cmd) as [|k [|]] eqn:E; [done| |done].
    apply Forall_cons in Hargs as [Hk _].
    apply Forall_singleton.
    eapply plain_recLine; [by apply plainArg_literal | plain_args
                          | apply length_recLine |].
    rewrite Hn in Hlen. cbn [String.length] in *. lia. }
  destruct (String.eqb_spec (Name cmd) "HMSET") as [Hn|_]; [|done].
  destruct (Args cmd) as [|key [|a rest]] eqn:E; [done..|].
  destruct (collectPairs (a :: rest) ∅) as [values|] eqn:C; [|done].
  apply Forall_cons in Hargs as [Hkey Hargs].
  apply Forall_fmap, Forall_forall. intros [f v] Hin. cbn.
  assert (values !! f = Some v) as Hfv.
  { apply elem_of_map_to_list. unfold rangeMap in Hin.
    by rewrite rangeOf_perm in Hin. }
  destruct (collectPairs_elems _ _ _ _ _ C Hfv) as [?|(Hf & Hv & Hb)]; [done|].
  rewrite Forall_forall in Hargs.
  eapply plain_recLine; [by apply plainArg_literal
                        | pose proof (Hargs f Hf); pose proof (Hargs v Hv);
                          plain_args
                        | apply length_recLine |].
  rewrite Hn in Hlen. rewrite !joinLen_cons2, ?joinLen_singleton in *.
  cbn [String.length] in *. lia.
Qed.

(** ** Replaying the records of a command *)

Lemma Set_replica (k v : string) (sv : StoredValue) d :
  value sv = v →
  Set_ k (plainValue v) (replicaOf d false) = replicaOf (<[k := sv]> d) false.
Proof.
  intros <-. unfold Set_, replicaOf, setData, writeAOF. cbn.
  by rewrite fmap_insert.
Qed.

Lemma Del_replica (k : string) d :
  Del k (replicaOf d false) = replicaOf (delete k d) false.
Proof.
  unfold Del, replicaOf, setData, writeAOF. cbn. by rewrite fmap_delete.
Qed.

Lemma hmsetStep_replica (key : string) (kv : string * string) d :
  hmsetStep key (replicaOf d false) kv = replicaOf (hmsetData key d kv) false.
Proof.
  unfold hmsetStep, hmsetData, replicaOf, setData, writeAOF. cbn.
  by rewrite fmap_insert.
Qed.

Lemma plainArg_SP (a : string) : plainArg a → hasChar SP a = false.
Proof. by intros (? & _). Qed.

Section Replay.

(** What each call of [processCommand] in the loop reads from outside. *)
Variable envs : nat → Env.

Lemma replay_SET (i : nat) (k v : string)
    (rest : list string) (rr : RedisStore) :
  plainArg k → plainArg v →
  replayLines envs i (recLine "SET" [k; v] :: rest) rr
  = replayLines envs (S i) rest (Set_ k (plainValue v) rr).
Proof.
  intros Hk%plainArg_SP Hv%plainArg_SP. cbn [replayLines].
  rewrite recLine_Join, splitOn_Join; [reflexivity|].
  repeat (apply Forall_cons_2; [done|]). apply Forall_nil_2.
Qed.

Lemma replay_DEL (i : nat) (k : string)
    (rest : list string) (rr : RedisStore) :
  plainArg k →
  replayLines envs i (recLine "DEL" [k] :: rest) rr
  = replayLines envs (S i) rest (Del k rr).
Proof.
  intros Hk%plainArg_SP. cbn [replayLines].
  rewrite recLine_Join, splitOn_Join; [reflexivity|].
  repeat (apply Forall_cons_2; [done|]). apply Forall_nil_2.
Qed.

Lemma replay_HMSET (i : nat) (key f v : string)
    (rest : list string) (rr : RedisStore) :
  plainArg key → plainArg f → plainArg v →
  replayLines envs i (recLine "HMSET" [key; f; v] :: rest) rr
  = replayLines envs (S i) rest (hmsetStep key rr (f, v)).
Proof.
  intros Hk%plainArg_SP Hf%plainArg_SP Hv%plainArg_SP. cbn [replayLines].
  rewrite recLine_Join, splitOn_Join.
  - change (processCommand (envs i) rr (mkCommand "HMSET" [key; f; v]))
      with (Returned "OK" (HMSet (order (envs i)) key (<[f := v]> ∅) rr)).
    by rewrite insert_empty, HMSet_singleton.
  - repeat (apply Forall_cons_2; [done|]). apply Forall_nil_2.
Qed.

Lemma replay_HMSET_loop (key : string) (l : list (string * string)) :
  plainArg key → Forall (λ kv, plainArg kv.1 ∧ plainArg kv.2) l →
  ∀ (i : nat) (rest : list string) d,
    replayLines envs i
      ((map (λ kv, recLine "HMSET" [key; kv.1; kv.2]) l ++ rest)%list)
      (replicaOf d false)
    = replayLines envs (i + length l) rest
        (replicaOf (foldl (hmsetData key) d l) false).
Proof.
  intros Hkey. induction 1 as [|[f v] l [Hf Hv] _ IH]; intros i rest d.
  - cbn. by rewrite Nat.add_0_r.
  - cbn [map app foldl length]. cbn [fst snd] in *.
    rewrite replay_HMSET by done. rewrite hmsetStep_replica, IH.
    f_equal. lia.
Qed.

Lemma replay_command (e : Env) (cmd : Command) d :
  wireCommand cmd →
  ∀ (i : nat) (rest : list string),
    replayLines envs i ((recordLinesOf e cmd ++ rest)%list) (replicaOf d false)
    = replayLines envs (i + length (recordLinesOf e cmd)) rest
        (replicaOf (dataAfter e cmd d) false).
Proof.
  intros [Hargs _] i rest.
  assert (replayLines envs i (([] ++ rest)%list) (replicaOf d false)
          = replayLines envs (i + length (@nil string)) rest (replicaOf d false))
    as Hnone.
  { cbn. by rewrite Nat.add_0_r. }
  unfold recordLinesOf, dataAfter.
  destruct (String.eqb (Name cmd) "SET").
  { destruct (Args cmd) as [|k [|v more]]; [done..|].
    apply Forall_cons in Hargs as [Hk Hargs].
    apply Forall_cons in Hargs as [Hv _].
    cbn [app length]. rewrite replay_SET by done.
    rewrite (Set_replica k v (plainValue v)) by done. f_equal. lia. }
  destruct (String.eqb (Name cmd) "EXPIRE").
  { destruct (Args cmd) as [|k [|v [|s more]]]; [done..|].
    destruct (Atoi s) as [z|]; [|done].
    apply Forall_cons in Hargs as [Hk Hargs].
    apply Forall_cons in Hargs as [Hv _].
    cbn [app length]. rewrite replay_SET by done.
    rewrite (Set_replica k v
               {| value := v;
                  expiration := Add (now e) (wrap64 (z * Second)) |}) by done.
    f_equal. lia. }
  destruct (String.eqb (Name cmd) "DEL").
  { destruct (Args cmd) as [|k [|]]; [done| |done].
    apply Forall_cons in Hargs as [Hk _].
    cbn [app length]. rewrite replay_DEL by done.
    rewrite Del_replica. f_equal. lia. }
  destruct (String.eqb (Name cmd) "HMSET"); [|done].
  destruct (Args cmd) as [|key [|a more]]; [done..|].
  destruct (collectPairs (a :: more) ∅) as [values|] eqn:C; [|done].
  apply Forall_cons in Hargs as [Hkey Hargs].
  rewrite length_map. apply replay_HMSET_loop; [done|].
  apply Forall_forall. intros [f v] Hin. cbn.
  assert (values !! f = Some v) as Hfv.
  { apply elem_of_map_to_list. unfold rangeMap in Hin.
    by rewrite rangeOf_perm in Hin. }
  destruct (collectPairs_elems _ _ _ _ _ C Hfv) as [?|(Hf & Hv & _)]; [done|].
  rewrite Forall_forall in Hargs. auto.
Qed.

End Replay.

(** ** A run followed by a replay *)

Lemma ListPop_frame (key : string) (r : RedisStore) :
  data (ListPop key r).2 = data r
  ∧ aof (ListPop key r).2 = aof r
  ∧ writeAOFEnabled (ListPop key r).2 = writeAOFEnabled r.
Proof. unfold ListPop. by destruct (listAt r key). Qed.

Lemma logged_on (r : RedisStore) (recs : list string) :
  writeAOFEnabled r = true → logged r recs = recs.
Proof. unfold logged. by intros ->. Qed.

Lemma run_replay (ops : list Op) :
  Forall wireOp ops →
  ∀ r, writeAOFEnabled r = true →
    ∃ ls : list string,
      aof (storeOf (runOps ops r))
        = aof r +:+ String.concat "" (terminated <$> ls)
      ∧ Forall goodLine ls
      ∧ ∀ (envs : nat → Env) (i : nat) (rest : list string),
          replayLines envs i ((ls ++ rest)%list) (replicaOf (data r) false)
          = replayLines envs (i + length ls) rest
              (replicaOf (data (storeOf (runOps ops r))) false).
Proof.
  induction 1 as [|op ops Hop _ IH]; intros r Hon.
  { exists []. cbn. rewrite append_nil_r. split; [done|]. split; [done|].
    intros. by rewrite Nat.add_0_r. }
  destruct op as [e cmd|key val|key]; cbn [runOps wireOp] in *.
  - pose proof (processCommand_data e r cmd) as Hd.
    pose proof (processCommand_aof e r cmd) as Ha.
    destruct (processCommand_frame e r cmd) as (Hf & _ & _).
    rewrite logged_on, recordsOf_lines in Ha by done.
    pose proof (recordLinesOf_good e cmd Hop) as Hg.
    pose proof (λ envs, replay_command envs e cmd (data r) Hop) as Hr.
    rewrite <- Hd in Hr.
    destruct (processCommand e r cmd) as [resp r'|r'|r']; cbn [storeOf] in *;
      [|by exists (recordLinesOf e cmd)..].
    destruct (IH r') as (ls' & Ha' & Hg' & Hr'); [congruence|].
    exists (recordLinesOf e cmd ++ ls')%list.
    split; [|split].
    + rewrite Ha', Ha, fmap_app, concat_app. by rewrite append_assoc.
    + by apply Forall_app.
    + intros envs i rest. rewrite <- app_assoc, Hr, Hr', length_app.
      f_equal. lia.
  - destruct (IH (ListPush key val r)) as (ls & Ha & Hg & Hr); [done|].
    by exists ls.
  - destruct (ListPop_frame key r) as (Hd & Ha0 & Hf).
    destruct (IH (ListPop key r).2) as (ls & Ha & Hg & Hr); [congruence|].
    exists ls. rewrite Ha0, Hd in *. done.
Qed.

Lemma HMGet_replica (key : string) (fields : list string) (r : RedisStore) (b : bool) :
  (HMGet key fields (replicaOf (data r) b)).1 = (HMGet key fields r).1.
Proof.
  unfold HMGet. cbn [fst].
  generalize (∅ : gmap string string).
  induction fields as [|f fields IH]; intros m; [done|].
  cbn [foldl]. rewrite IH. f_equal.
  unfold hmgetStep, replicaOf. cbn [data]. rewrite lookup_fmap.
  by destruct (data r !! fieldKey key f).
Qed.

Lemma Get_replica (t : Time) (key : string) (r : RedisStore) (b : bool) :
  (Get t key (replicaOf (data r) b)).1 = (Get t key r).1
  ↔ ¬ ∃ sv, data r !! key = Some sv ∧ isExpired t sv = true.
Proof.
  unfold Get, replicaOf. cbn [data]. rewrite lookup_fmap.
  destruct (data r !! key) as [sv|]; cbn.
  - destruct (isExpired t sv) eqn:X; cbn.
    + split; [done|]. intros H. destruct H. by exists sv.
    + split; [|done]. intros _ (sv' & [= <-] & ?). congruence.
  - split; [|done]. by intros _ (sv' & ? & _).
Qed.

(** C1, as the code has it.  Run any sequence of wire commands and direct
    list calls on the store a new file starts with, then replay the log it
    wrote into a new store.  The replay returns without error, and the
    store it builds binds the same scalar keys to the same values, every
    expiration cleared, and holds no list.  So HMGet agrees with the first
    store on every key and field, and Get agrees at a time [t] exactly on
    the keys whose entry in the first store has not expired at [t]. *)
Theorem replay_restores_values (ops : list Op) (envs : nat → Env)
    (r1 : RedisStore) :
  Forall wireOp ops →
  storeOf (runOps ops liveStore) = r1 →
  loadAOF envs (Opened (aof r1) None) NewRedisStore
    = Returned None
        {| data := clearExpiration <$> data r1; listData := ∅; aof := "";
           writeAOFEnabled := true |}
  ∧ (∀ r2 key fields,
       loadAOF envs (Opened (aof r1) None) NewRedisStore = Returned None r2 →
       (HMGet key fields r2).1 = (HMGet key fields r1).1)
  ∧ (∀ r2 t key,
       loadAOF envs (Opened (aof r1) None) NewRedisStore = Returned None r2 →
       ((Get t key r2).1 = (Get t key r1).1
        ↔ ¬ ∃ sv, data r1 !! key = Some sv ∧ isExpired t sv = true))
  ∧ (∀ r2 key,
       loadAOF envs (Opened (aof r1) None) NewRedisStore = Returned None r2 →
       ListPop key r2 = (("", false), r2)).
Proof.
  intros Hw <-.
  destruct (run_replay ops Hw liveStore eq_refl) as (ls & Ha & Hg & Hr).
  set (r1 := storeOf (runOps ops liveStore)) in *.
  assert (loadAOF envs (Opened (aof r1) None) NewRedisStore
          = Returned None (replicaOf (data r1) true)) as Hload.
  { unfold loadAOF. rewrite Ha. cbn [aof liveStore]. rewrite append_nil_l.
    rewrite scanFile_terminated by done.
    specialize (Hr envs 0%nat []). rewrite app_nil_r in Hr.
    change (setEnabled false NewRedisStore) with (replicaOf (data liveStore) false).
    by rewrite Hr. }
  split; [exact Hload|].
  split; [|split]; intros r2 **; rewrite Hload in *; simplify_eq.
  - apply HMGet_replica.
  - apply Get_replica.
  - done.
Qed.

Lemma wireCommand_check (cmd : Command) :
  forallb (λ a, negb (hasChar SP a || hasChar LF a || hasChar CR a)) (Args cmd)
  && (Z.of_nat (String.length (lineOf cmd)) <? MaxScanTokenSize)%Z = true →
  wireCommand cmd.
Proof.
  intros [Ha Hl]%andb_true_iff. split; [|by apply Z.ltb_lt].
  apply Forall_forall. intros a Hin.
  rewrite forallb_forall in Ha. apply list_elem_of_In, Ha in Hin.
  apply negb_true_iff in Hin. by apply plainArg_literal.
Qed.

Lemma sampleRun_wire : Forall wireOp sampleRun.
Proof.
  unfold sampleRun.
  repeat (apply Forall_cons_2;
          [first [exact I | apply wireCommand_check; vm_compute; reflexivity]|]).
  apply Forall_nil_2.
Qed.

Lemma expireRun_wire : Forall wireOp expireRun.
Proof.
  unfold expireRun.
  apply Forall_cons_2; [apply wireCommand_check; vm_compute; reflexivity|].
  apply Forall_nil_2.
Qed.

Lemma replay_restores_values_witness :
  loadAOF (λ _, mkEnv 500 idOrder)
    (Opened (aof (storeOf (runOps sampleRun liveStore))) None) NewRedisStore
  = Returned None
      {| data := clearExpiration <$> data (storeOf (runOps sampleRun liveStore));
         listData := ∅; aof := ""; writeAOFEnabled := true |}.
Proof.
  exact (proj1 (replay_restores_values sampleRun (λ _, mkEnv 500 idOrder)
                  (storeOf (runOps sampleRun liveStore)) sampleRun_wire eq_refl)).
Defined.

(** C1, as stated, fails.  EXPIRE is logged as a plain SET, so the replayed
    store has the key without its expiration: after [EXPIRE k v 0] at time
    100, [Get] at time 101 finds nothing in the first store and finds [v] in
    the replayed one. *)
Lemma replay_forgets_expiration :
  ¬ (∀ (ops : list Op) (envs : nat → Env) (r2 : RedisStore) (t : Time)
       (key : string),
       Forall wireOp ops →
       loadAOF envs (Opened (aof (storeOf (runOps ops liveStore))) None)
         NewRedisStore = Returned None r2 →
       (Get t key r2).1 = (Get t key (storeOf (runOps ops liveStore))).1).
Proof.
  intros H.
  specialize (H expireRun (λ _, mkEnv 200 idOrder)
                (replicaOf {[ "k" := plainValue "v" ]} true) 101%Z "k"
                expireRun_wire).
  assert ((Get 101 "k" (replicaOf {[ "k" := plainValue "v" ]} true)).1
          = (Get 101 "k" (storeOf (runOps expireRun liveStore))).1) as Heq.
  { apply H. vm_compute. reflexivity. }
  vm_compute in Heq. discriminate Heq.
Qed.

(** Nor does any record carry a list: a value pushed before the restart is
    popped from the first store and missing from the replayed one. *)
Lemma replay_forgets_lists :
  (ListPop "q" (storeOf (runOps [OpListPush "q" "x"] liveStore))).1 = ("x", true)
  ∧ ∃ r2,
      loadAOF (λ _, mkEnv 200 idOrder)
        (Opened (aof (storeOf (runOps [OpListPush "q" "x"] liveStore))) None)
        NewRedisStore = Returned None r2
      ∧ (ListPop "q" r2).1 = ("", false).
Proof.
  split; [reflexivity|]. eexists. split; [vm_compute; reflexivity|]. reflexivity.
Qed.

(** Why the arguments must be plain: the record format has no escaping.  A
    value with a space is cut at the space by the replay, and a value that
    ends in a carriage return loses it to the line scanner. *)
Lemma replay_cuts_spaced_argument :
  ∃ r1 r2,
    processCommand (mkEnv 100 idOrder) liveStore (mkCommand "SET" ["k"; "a b"])
      = Returned "OK" r1
    ∧ loadAOF (λ _, mkEnv 200 idOrder) (Opened (aof r1) None) NewRedisStore
      = Returned None r2
    ∧ data r1 !! "k" = Some (plainValue "a b")
    ∧ data r2 !! "k" = Some (plainValue "a").
Proof. do 2 eexists. repeat split; vm_compute; reflexivity. Qed.

Lemma replay_drops_trailing_CR :
  ∃ r1 r2,
    processCommand (mkEnv 100 idOrder) liveStore
        (mkCommand "SET" ["k"; String "v" (String CR "")])
      = Returned "OK" r1
    ∧ loadAOF (λ _, mkEnv 200 idOrder) (Opened (aof r1) None) NewRedisStore
      = Returned None r2
    ∧ data r1 !! "k" = Some (plainValue (String "v" (String CR "")))
    ∧ data r2 !! "k" = Some (plainValue "v").
Proof. do 2 eexists. repeat split; vm_compute; reflexivity. Qed.

(** A record of a command the replay cannot run ends the replay: the
    unpaired HMSET panics there as it does live. *)
Lemma replay_unpaired_HMSET_panics (envs : nat → Env) (r : RedisStore) :
  loadAOF envs (Opened ("HMSET k f" +:+ newline) None) r
  = Panicked (setEnabled false r).
Proof. reflexivity. Qed.

(** * Further properties of the store and the command engine *)

(** ** Scalar writes *)

(** X1. DEL of a key answers OK whether or not the key was bound; after
    it [Get] finds nothing under the key at any time, every other scalar key
    and every list is as before, and with the gate open exactly one record
    [DEL key] is appended, also when there was nothing to delete. *)
Theorem DEL_effect (e : Env) (r : RedisStore) (k : string) :
  processCommand e r (mkCommand "DEL" [k]) = Returned "OK" (Del k r)
  ∧ (∀ t : Time, (Get t k (Del k r)).1 = ("", false))
  ∧ (∀ k', k' ≠ k → data (Del k r) !! k' = data r !! k')
  ∧ listData (Del k r) = listData r
  ∧ (writeAOFEnabled r = true →
     aof (Del k r) = aof r +:+ ("DEL " +:+ k +:+ newline))
  ∧ (writeAOFEnabled r = false → aof (Del k r) = aof r).
Proof.
  split; [reflexivity|].
  assert (data (Del k r) = delete k (data r)) as Hd.
  { unfold Del. by rewrite writeAOF_data. }
  split. { intros t. unfold Get. by rewrite Hd, lookup_delete_eq. }
  split. { intros k' Hne. by rewrite Hd, lookup_delete_ne. }
  split. { unfold Del. by rewrite writeAOF_listData. }
  split.
  - intros Hon. unfold Del. rewrite writeAOF_on by done. reflexivity.
  - intros Hoff. unfold Del. by rewrite writeAOF_off.
Qed.

Lemma DEL_effect_witness :
  aof (Del "k" liveStore) = "" +:+ ("DEL " +:+ "k" +:+ newline).
Proof.
  exact (proj1 (proj2 (proj2 (proj2 (proj2
           (DEL_effect (mkEnv 0 idOrder) liveStore "k"))))) eq_refl).
Defined.

(** X2. [Set] stores the value it is given as it is, expiration included:
    the key is bound to it, [Get] finds its text unless that expiration has
    passed, other keys and the lists are untouched, and the record written
    is [SET key value], which does not carry the expiration. *)
Theorem Set_stores_verbatim (k : string) (sv : StoredValue) (r : RedisStore) :
  data (Set_ k sv r) !! k = Some sv
  ∧ (∀ t : Time,
       (Get t k (Set_ k sv r)).1
       = if isExpired t sv then ("", false) else (value sv, true))
  ∧ (∀ k', k' ≠ k → data (Set_ k sv r) !! k' = data r !! k')
  ∧ listData (Set_ k sv r) = listData r
  ∧ (writeAOFEnabled r = true →
     aof (Set_ k sv r) = aof r +:+ ("SET " +:+ k +:+ " " +:+ value sv +:+ newline)).
Proof.
  assert (data (Set_ k sv r) = <[k := sv]> (data r)) as Hd.
  { unfold Set_. by rewrite writeAOF_data. }
  split. { by rewrite Hd, lookup_insert_eq. }
  split. { intros t. unfold Get. rewrite Hd, lookup_insert_eq.
           by destruct (isExpired t sv). }
  split. { intros k' Hne. by rewrite Hd, lookup_insert_ne. }
  split. { unfold Set_. by rewrite writeAOF_listData. }
  intros Hon. unfold Set_. rewrite writeAOF_on by done.
  unfold aofLine, Join. cbn [String.concat aof setData].
  by rewrite !append_assoc.
Qed.

Lemma Set_stores_verbatim_witness :
  aof (Set_ "foo" (plainValue "bar") liveStore)
  = "" +:+ ("SET " +:+ "foo" +:+ " " +:+ "bar" +:+ newline).
Proof.
  exact (proj2 (proj2 (proj2 (proj2
           (Set_stores_verbatim "foo" (plainValue "bar") liveStore)))) eq_refl).
Defined.

(** ** Expiration *)

Lemma wrap64_id (z : Z) : (- 2 ^ 63 ≤ z < 2 ^ 63)%Z → wrap64 z = z.
Proof. intros H. unfold wrap64. rewrite Z.mod_small; lia. Qed.

Lemma wrap64_over (z : Z) : (2 ^ 63 ≤ z < 2 ^ 64)%Z → wrap64 z = (z - 2 ^ 64)%Z.
Proof.
  intros H. unfold wrap64.
  replace (z + 2 ^ 63)%Z with ((z - 2 ^ 63) + 1 * 2 ^ 64)%Z by lia.
  rewrite Z.mod_add by lia. rewrite Z.mod_small; lia.
Qed.

Lemma EXPIRE_stores (e : Env) (r : RedisStore) (k v s : string)
    (more : list string) (n : Z) :
  Atoi s = Some n →
  processCommand e r (mkCommand "EXPIRE" (k :: v :: s :: more))
  = Returned "OK" (SetWithExpiration (now e) k v (wrap64 (n * Second)) r).
Proof. intros H. unfold processCommand. cbn. by rewrite H. Qed.

Lemma Get_SetWithExpiration (t0 t : Time) (k v : string) (d : Z) (r : RedisStore) :
  (Get t k (SetWithExpiration t0 k v d r)).1
  = if isExpired t {| value := v; expiration := Add t0 d |}
    then ("", false) else (v, true).
Proof.
  unfold Get, SetWithExpiration. rewrite writeAOF_data. cbn [data setData].
  rewrite lookup_insert_eq.
  by destruct (isExpired t {| value := v; expiration := Add t0 d |}).
Qed.

(** X3. EXPIRE with a number of seconds whose nanoseconds fit an int64
    binds the key until the deadline [now + seconds]: [Get] finds the
    value at every time up to and including the deadline and nothing after
    it (the deadline not being the zero time, which stands for no
    expiration).  Arguments after the third are ignored. *)
Theorem EXPIRE_deadline (e : Env) (r : RedisStore) (k v s : string)
    (more : list string) (n : Z) :
  Atoi s = Some n →
  (- 2 ^ 63 ≤ n * Second < 2 ^ 63)%Z →
  (now e + n * Second ≠ 0)%Z →
  ∃ r', processCommand e r (mkCommand "EXPIRE" (k :: v :: s :: more))
          = Returned "OK" r'
        ∧ data r' !! k
          = Some {| value := v; expiration := (now e + n * Second)%Z |}
        ∧ ∀ t : Time,
            (Get t k r').1
            = if (t <=? now e + n * Second)%Z then (v, true) else ("", false).
Proof.
  intros Ha Hfit Hnz. eexists. split; [by apply EXPIRE_stores|].
  rewrite wrap64_id by done. split.
  - unfold SetWithExpiration. rewrite writeAOF_data. cbn [data setData].
    by rewrite lookup_insert_eq.
  - intros t. rewrite Get_SetWithExpiration.
    unfold isExpired, IsZero, After, Add. cbn [expiration].
    destruct (Z.eqb_spec (now e + n * Second) 0); [done|]. cbn.
    destruct (Z.ltb_spec (now e + n * Second) t),
             (Z.leb_spec t (now e + n * Second)); (done || lia).
Qed.

Lemma EXPIRE_deadline_witness :
  ∃ r', processCommand (mkEnv 100 idOrder) liveStore
          (mkCommand "EXPIRE" ["k"; "v"; "10"]) = Returned "OK" r'
        ∧ data r' !! "k"
          = Some {| value := "v"; expiration := (100 + 10 * Second)%Z |}
        ∧ ∀ t : Time,
            (Get t "k" r').1
            = if (t <=? 100 + 10 * Second)%Z then ("v", true) else ("", false).
Proof.
  apply (EXPIRE_deadline (mkEnv 100 idOrder) liveStore "k" "v" "10" [] 10);
    [reflexivity | unfold Second; lia | unfold Second; cbn [now]; lia].
Defined.

(** X4. The seconds are multiplied into an int64 of nanoseconds, and the
    product wraps: a number of seconds between 9223372037 and 18446744073
    (a product in [2^63, 2^64)) gives a deadline [2^64] nanoseconds short,
    before the command's own time, so the key is expired from the start. *)
Theorem EXPIRE_overflow (e : Env) (r : RedisStore) (k v s : string)
    (more : list string) (n : Z) :
  Atoi s = Some n →
  (2 ^ 63 ≤ n * Second < 2 ^ 64)%Z →
  (now e + n * Second - 2 ^ 64 ≠ 0)%Z →
  ∃ r', processCommand e r (mkCommand "EXPIRE" (k :: v :: s :: more))
          = Returned "OK" r'
        ∧ data r' !! k
          = Some {| value := v;
                    expiration := (now e + n * Second - 2 ^ 64)%Z |}
        ∧ ∀ t : Time, (now e ≤ t)%Z → (Get t k r').1 = ("", false).
Proof.
  intros Ha Hover Hnz. eexists. split; [by apply EXPIRE_stores|].
  rewrite wrap64_over by done.
  replace (Add (now e) (n * Second - 2 ^ 64))
    with (now e + n * Second - 2 ^ 64)%Z by (unfold Add; lia).
  split.
  - unfold SetWithExpiration. rewrite writeAOF_data. cbn [data setData].
    rewrite lookup_insert_eq. do 2 f_equal. unfold Add. lia.
  - intros t Ht. rewrite Get_SetWithExpiration.
    unfold isExpired, IsZero, After, Add. cbn [expiration].
    replace (now e + (n * Second - 2 ^ 64))%Z
      with (now e + n * Second - 2 ^ 64)%Z by lia.
    destruct (Z.eqb_spec (now e + n * Second - 2 ^ 64) 0); [done|]. cbn.
    destruct (Z.ltb_spec (now e + n * Second - 2 ^ 64) t); [done | lia].
Qed.

Lemma EXPIRE_overflow_witness :
  ∃ r', processCommand (mkEnv 100 idOrder) liveStore
          (mkCommand "EXPIRE" ["k"; "v"; "9223372037"]) = Returned "OK" r'
        ∧ data r' !! "k"
          = Some {| value := "v";
                    expiration := (100 + 9223372037 * Second - 2 ^ 64)%Z |}
        ∧ ∀ t : Time, (100 ≤ t)%Z → (Get t "k" r').1 = ("", false).
Proof.
  apply (EXPIRE_overflow (mkEnv 100 idOrder) liveStore "k" "v" "9223372037" []
           9223372037);
    [reflexivity | unfold Second; lia | unfold Second; cbn [now]; lia].
Defined.

(** ** Hash fields *)

Lemma hmsetData_foldl_other (key x : string) (l : list (string * string)) :
  ∀ d, (∀ f v, (f, v) ∈ l → x ≠ fieldKey key f) →
       foldl (hmsetData key) d l !! x = d !! x.
Proof.
  induction l as [|[f v] l IH]; intros d H; [done|].
  cbn [foldl]. rewrite IH.
  - unfold hmsetData. cbn. rewrite lookup_insert_ne; [done|].
    intros Heq. by apply (H f v); [left|].
  - intros f' v' Hin. apply (H f' v'). by right.
Qed.

Lemma hmsetData_foldl_field (key f v : string) (l : list (string * string)) :
  ∀ d, NoDup l.*1 → (f, v) ∈ l →
       foldl (hmsetData key) d l !! fieldKey key f = Some (plainValue v).
Proof.
  induction l as [|[f0 v0] l IH]; intros d Hnd Hin.
  - by apply elem_of_nil in Hin.
  - cbn [foldl]. rewrite fmap_cons in Hnd. apply NoDup_cons in Hnd as [Hf0 Hnd].
    apply elem_of_cons in Hin as [[= <- <-]|Hin]; [|by apply IH].
    rewrite hmsetData_foldl_other.
    + unfold hmsetData. cbn. by rewrite lookup_insert_eq.
    + intros f' v' Hin Heq. apply fieldKey_inj in Heq as <-.
      apply Hf0. cbn. apply list_elem_of_fmap. by exists (f, v').
Qed.

Lemma HMSet_field (o : MapOrder) (key f v : string)
    (values : gmap string string) (r : RedisStore) :
  values !! f = Some v →
  data (HMSet o key values r) !! fieldKey key f = Some (plainValue v).
Proof.
  intros H. unfold HMSet. rewrite HMSet_loop_data.
  apply hmsetData_foldl_field; [apply rangeMap_NoDup|].
  unfold rangeMap. rewrite rangeOf_perm. by apply elem_of_map_to_list.
Qed.

Lemma HMSet_other (o : MapOrder) (key x : string)
    (values : gmap string string) (r : RedisStore) :
  (∀ f, is_Some (values !! f) → x ≠ fieldKey key f) →
  data (HMSet o key values r) !! x = data r !! x.
Proof.
  intros H. unfold HMSet. rewrite HMSet_loop_data.
  apply hmsetData_foldl_other. intros f v Hin. apply H. exists v.
  apply elem_of_map_to_list. unfold rangeMap in Hin.
  by rewrite rangeOf_perm in Hin.
Qed.

Lemma HMSET_runs (e : Env) (r : RedisStore) (key a : string)
    (rest : list string) (values : gmap string string) :
  collectPairs (a :: rest) ∅ = Some values →
  processCommand e r (mkCommand "HMSET" (key :: a :: rest))
  = Returned "OK" (HMSet (order e) key values r).
Proof. intros H. unfold processCommand. cbn [Name Args String.eqb Ascii.eqb Bool.eqb]. by rewrite H. Qed.

(** X5. HMSET with a key and complete field/value pairs answers OK and
    binds, for every field of the collected pairs, the composite key
    [key.field] to the field's value with no expiration, whatever the
    iteration order; every other scalar key and every list is as before;
    with the gate open it appends exactly the records
    [HMSET key field value] of the collected pairs, one for each distinct
    field, in some order of those pairs, and with the gate closed it
    appends nothing. *)
Theorem HMSET_effect (e : Env) (r : RedisStore) (key a : string)
    (rest : list string) (values : gmap string string) :
  collectPairs (a :: rest) ∅ = Some values →
  ∃ r', processCommand e r (mkCommand "HMSET" (key :: a :: rest))
          = Returned "OK" r'
        ∧ (∀ f v, values !! f = Some v →
             data r' !! (key +:+ "." +:+ f)
             = Some {| value := v; expiration := 0%Z |})
        ∧ (∀ x, (∀ f, is_Some (values !! f) → x ≠ key +:+ "." +:+ f) →
             data r' !! x = data r !! x)
        ∧ listData r' = listData r
        ∧ (writeAOFEnabled r = true →
           ∃ p : list (string * string),
             p ≡ₚ map_to_list values
             ∧ length p = size values
             ∧ aof r' = aof r +:+ String.concat ""
                 (map (λ kv, aofLine "HMSET" [key; kv.1; kv.2]) p))
        ∧ (writeAOFEnabled r = false → aof r' = aof r).
Proof.
  intros H. eexists. split; [by apply HMSET_runs|].
  split; [intros f v Hf; by apply HMSet_field|].
  split; [intros x Hx; by apply HMSet_other|].
  split; [apply HMSet_loop_listData|].
  split.
  - intros Hon. exists (rangeMap (order e) values).
    split; [apply rangeOf_perm|]. split.
    + unfold rangeMap. rewrite rangeOf_perm. apply length_map_to_list.
    + unfold HMSet. by apply HMSet_loop_on.
  - intros Hoff. unfold HMSet. by apply HMSet_loop_off.
Qed.

Lemma HMSET_effect_witness :
  ∃ r', processCommand (mkEnv 0 revOrder) liveStore
          (mkCommand "HMSET" ["h"; "f1"; "v1"; "f2"; "v2"]) = Returned "OK" r'
        ∧ (∀ f v, ({[ "f1" := "v1"; "f2" := "v2" ]} : gmap string string) !! f = Some v →
             data r' !! ("h" +:+ "." +:+ f)
             = Some {| value := v; expiration := 0%Z |})
        ∧ (∀ x, (∀ f, is_Some (({[ "f1" := "v1"; "f2" := "v2" ]} : gmap string string) !! f) →
                      x ≠ "h" +:+ "." +:+ f) →
             data r' !! x = data liveStore !! x)
        ∧ listData r' = listData liveStore
        ∧ (writeAOFEnabled liveStore = true →
           ∃ p : list (string * string),
             p ≡ₚ map_to_list ({[ "f1" := "v1"; "f2" := "v2" ]} : gmap string string)
             ∧ length p = size ({[ "f1" := "v1"; "f2" := "v2" ]} : gmap string string)
             ∧ aof r' = aof liveStore +:+ String.concat ""
                 (map (λ kv, aofLine "HMSET" ["h"; kv.1; kv.2]) p))
        ∧ (writeAOFEnabled liveStore = false → aof r' = aof liveStore).
Proof.
  apply (HMSET_effect (mkEnv 0 revOrder) liveStore "h" "f1" ["v1"; "f2"; "v2"]).
  vm_compute. reflexivity.
Defined.

Lemma collectPairs_snoc (l : list string) :
  ∀ (m : gmap string string) (f v : string),
    Nat.even (length l) = true →
    collectPairs (l ++ [f; v]) m = (insert f v) <$> collectPairs l m.
Proof.
  induction l as [l IH] using (induction_ltof1 _ (@length string)).
  unfold ltof in IH. intros m f v He.
  destruct l as [|f0 [|v0 rest]]; [done | done |].
  cbn [app collectPairs]. apply IH; [cbn; lia | done].
Qed.

(** X6. When a field is given more than once, the last pair wins: HMSET
    whose tokens end with the pair [f v], after any number of complete
    pairs, leaves field [f] bound to [v]. *)
Theorem HMSET_last_pair_wins (e : Env) (r : RedisStore) (key f v : string)
    (pairs : list string) :
  Nat.even (length pairs) = true →
  ∃ r', processCommand e r (mkCommand "HMSET" (key :: pairs ++ [f; v]))
          = Returned "OK" r'
        ∧ data r' !! (key +:+ "." +:+ f)
          = Some {| value := v; expiration := 0%Z |}
        ∧ (HMGet key [f] r').1 = {[ f := v ]}.
Proof.
  intros He.
  destruct (proj1 (collectPairs_parity pairs ∅) He) as [m Hm].
  assert (collectPairs (pairs ++ [f; v]) ∅ = Some (<[f := v]> m)) as Hc.
  { rewrite collectPairs_snoc by done. by rewrite Hm. }
  assert (data (HMSet (order e) key (<[f := v]> m) r) !! fieldKey key f
          = Some (plainValue v)) as Hd.
  { apply HMSet_field. apply lookup_insert_eq. }
  exists (HMSet (order e) key (<[f := v]> m) r). split.
  - destruct pairs as [|a rest]; by apply HMSET_runs.
  - split; [exact Hd|]. unfold HMGet, hmgetStep. cbn.
    by rewrite Hd, insert_empty.
Qed.

Lemma HMSET_last_pair_wins_witness :
  ∃ r', processCommand (mkEnv 0 idOrder) liveStore
          (mkCommand "HMSET" ("h" :: ["f"; "a"] ++ ["f"; "b"])) = Returned "OK" r'
        ∧ data r' !! ("h" +:+ "." +:+ "f")
          = Some {| value := "b"; expiration := 0%Z |}
        ∧ (HMGet "h" ["f"] r').1 = {[ "f" := "b" ]}.
Proof.
  exact (HMSET_last_pair_wins (mkEnv 0 idOrder) liveStore "h" "f" "b"
           ["f"; "a"] eq_refl).
Defined.

Lemma hmgetStep_lookup (key g f : string) (r : RedisStore)
    (m : gmap string string) :
  hmgetStep key r m g !! f
  = if decide (g = f)
    then match data r !! fieldKey key f with
         | Some sv => Some (value sv)
         | None => m !! f
         end
    else m !! f.
Proof.
  unfold hmgetStep. destruct (decide (g = f)) as [->|Hne].
  - destruct (data r !! fieldKey key f); [apply lookup_insert_eq | done].
  - destruct (data r !! fieldKey key g); [by apply lookup_insert_ne | done].
Qed.

Lemma HMGet_loop_lookup (key f : string) (r : RedisStore) (fields : list string) :
  ∀ m : gmap string string,
    foldl (hmgetStep key r) m fields !! f
    = if decide (f ∈ fields)
      then match data r !! fieldKey key f with
           | Some sv => Some (value sv)
           | None => m !! f
           end
      else m !! f.
Proof.
  induction fields as [|g fields IH]; intros m.
  - cbn. by rewrite decide_False by apply not_elem_of_nil.
  - cbn [foldl]. rewrite IH, hmgetStep_lookup.
    destruct (decide (g = f)) as [->|Hne].
    + rewrite (decide_True (P := f ∈ f :: fields)) by by left.
      destruct (data r !! fieldKey key f) as [sv|]; by destruct (decide _).
    + destruct (decide (f ∈ fields)) as [Hin|Hnin].
      * by rewrite decide_True by by right.
      * rewrite decide_False; [done|].
        intros [?|?]%elem_of_cons; congruence.
Qed.

(** X7. The mapping [HMGet] returns binds exactly the requested fields
    that have an entry under the composite key, each to the entry's text,
    expired or not; and the HMGET command answers with the empty brackets
    when none of the requested fields has an entry. *)
Theorem HMGet_lookup (e : Env) (key : string) (fields : list string)
    (r : RedisStore) :
  (∀ f, (HMGet key fields r).1 !! f
        = if decide (f ∈ fields)
          then value <$> data r !! (key +:+ "." +:+ f)
          else None)
  ∧ (∀ g more, fields = g :: more →
       (∀ f, f ∈ fields → data r !! (key +:+ "." +:+ f) = None) →
       processCommand e r (mkCommand "HMGET" (key :: fields)) = Returned "[]" r).
Proof.
  assert (∀ f, (HMGet key fields r).1 !! f
               = if decide (f ∈ fields)
                 then value <$> data r !! fieldKey key f else None) as Hl.
  { intros f. unfold HMGet. cbn [fst]. rewrite HMGet_loop_lookup.
    destruct (decide (f ∈ fields)); [|done].
    by destruct (data r !! fieldKey key f). }
  split; [exact Hl|].
  intros g more -> Hnone. unfold processCommand.
  cbn [Name Args String.eqb Ascii.eqb Bool.eqb].
  assert ((HMGet key (g :: more) r).1 = ∅) as Hempty.
  { apply map_eq. intros f. rewrite Hl, lookup_empty.
    destruct (decide (f ∈ g :: more)) as [Hin|]; [|done].
    pose proof (Hnone f Hin) as Hn.
    change (data r !! fieldKey key f = None) in Hn. by rewrite Hn. }
  unfold HMGet in *. cbn [fst] in Hempty. rewrite Hempty.
  unfold rangeMap. rewrite map_to_list_empty.
  by rewrite (proj1 (Permutation_nil_r _) (rangeOf_perm (order e) [])).
Qed.

Lemma HMGet_lookup_witness :
  processCommand (mkEnv 0 idOrder) liveStore (mkCommand "HMGET" ["h"; "f"; "g"])
  = Returned "[]" liveStore.
Proof.
  refine (proj2 (HMGet_lookup (mkEnv 0 idOrder) "h" ["f"; "g"] liveStore)
            "f" ["g"] eq_refl _).
  intros f _. apply lookup_empty.
Defined.

(** ** Runs of commands *)

Lemma handleCommands_frame_aux (steps : list (Env * Command)) :
  ∀ r,
    listData (storeOf (handleCommands steps r)) = listData r
    ∧ writeAOFEnabled (storeOf (handleCommands steps r)) = writeAOFEnabled r
    ∧ (writeAOFEnabled r = false →
       aof (storeOf (handleCommands steps r)) = aof r).
Proof.
  induction steps as [|[e cmd] steps IH]; intros r; [done|].
  cbn [handleCommands].
  destruct (processCommand_frame e r cmd) as (He & Hl & Ha).
  destruct (processCommand e r cmd) as [resp r'|r'|r']; cbn [storeOf] in *;
    [|done..].
  destruct (IH r') as (Hl' & He' & Ha').
  destruct (handleCommands steps r') as [resps r''|r''|r'']; cbn [storeOf] in *;
    (split; [congruence|]; split; [congruence|];
     intros Hoff; rewrite Ha' by congruence; by apply Ha).
Qed.

(** X8. No run of commands through [handleCommands] touches the lists or
    the gate; and while the gate is closed, as it is on a store that
    [loadAOF] has not opened, no run writes anything to the log.  When the
    run returns, it gives one response for each command. *)
Theorem handleCommands_frame (steps : list (Env * Command)) (r : RedisStore) :
  listData (storeOf (handleCommands steps r)) = listData r
  ∧ writeAOFEnabled (storeOf (handleCommands steps r)) = writeAOFEnabled r
  ∧ (writeAOFEnabled r = false →
     aof (storeOf (handleCommands steps r)) = aof r)
  ∧ aof (storeOf (handleCommands steps NewRedisStore)) = ""
  ∧ (∀ responses r',
       handleCommands steps r = Returned responses r' →
       length responses = length steps).
Proof.
  destruct (handleCommands_frame_aux steps r) as (Hl & He & Ha).
  split; [exact Hl|]. split; [exact He|]. split; [exact Ha|].
  split.
  { by apply (handleCommands_frame_aux steps NewRedisStore). }
  revert r Hl He Ha. induction steps as [|[e cmd] steps IH];
    intros r _ _ _ responses r' H.
  - cbn in H. by simplify_eq.
  - cbn [handleCommands] in H.
    destruct (processCommand e r cmd) as [resp r1| |]; [|done..].
    destruct (handleCommands steps r1) as [resps r2| |] eqn:E; [|done..].
    simplify_eq. cbn. f_equal.
    destruct (handleCommands_frame_aux steps r1) as (? & ? & ?).
    by eapply IH.
Qed.

Lemma handleCommands_frame_witness :
  aof (storeOf (handleCommands
         [(mkEnv 0 idOrder, mkCommand "SET" ["k"; "v"])] NewRedisStore))
  = aof NewRedisStore.
Proof.
  exact (proj1 (proj2 (proj2 (handleCommands_frame
           [(mkEnv 0 idOrder, mkCommand "SET" ["k"; "v"])] NewRedisStore)))
         eq_refl).
Defined.

(** X9. Running two batches one after the other is running their
    concatenation: the second batch starts from the store the first left,
    the responses are joined, and a panic or exit in the first batch is the
    end of the whole. *)
Theorem handleCommands_app (s1 s2 : list (Env * Command)) (r : RedisStore) :
  handleCommands (s1 ++ s2) r
  = match handleCommands s1 r with
    | Returned a r' =>
        match handleCommands s2 r' with
        | Returned b r'' => Returned (a ++ b)%list r''
        | o => o
        end
    | o => o
    end.
Proof.
  revert r. induction s1 as [|[e cmd] s1 IH]; intros r.
  - cbn. by destruct (handleCommands s2 r).
  - cbn [app handleCommands].
    destruct (processCommand e r cmd) as [resp r1| |]; [|done..].
    rewrite IH. destruct (handleCommands s1 r1) as [a r'| |]; [|done..].
    by destruct (handleCommands s2 r').
Qed.

(** X10. The list methods keep to the list map: a push or a pop leaves the
    scalar map, the log and the gate as they were and the lists of other
    keys unchanged; scalars and lists are separate name spaces, so one key
    can hold a scalar and a list at once. *)
Theorem list_methods_frame (key val : string) (r : RedisStore) :
  data (ListPush key val r) = data r
  ∧ aof (ListPush key val r) = aof r
  ∧ writeAOFEnabled (ListPush key val r) = writeAOFEnabled r
  ∧ data (ListPop key r).2 = data r
  ∧ aof (ListPop key r).2 = aof r
  ∧ writeAOFEnabled (ListPop key r).2 = writeAOFEnabled r
  ∧ (∀ key', key' ≠ key →
       listData (ListPush key val r) !! key' = listData r !! key'
       ∧ listData (ListPop key r).2 !! key' = listData r !! key')
  ∧ (∀ (t : Time) (v : string),
       (Get t key (ListPush key val (Set_ key (plainValue v) r))).1 = (v, true)
       ∧ listAt (ListPush key val (Set_ key (plainValue v) r)) key
         = (listAt r key ++ [val])%list).
Proof.
  destruct (ListPop_frame key r) as (Hd & Ha & He).
  repeat (split; [done|]). split.
  - intros key' Hne. split.
    + unfold ListPush. cbn. by rewrite lookup_insert_ne.
    + unfold ListPop. destruct (listAt r key); [done|].
      cbn. by rewrite lookup_insert_ne.
  - intros t v. split.
    + apply Get_plain. unfold ListPush, Set_. cbn.
      rewrite writeAOF_data. cbn. apply lookup_insert_eq.
    + rewrite listAt_ListPush. unfold listAt, Set_.
      by rewrite writeAOF_listData.
Qed.

Lemma list_methods_frame_witness :
  listData (ListPush "a" "x" liveStore) !! "b" = listData liveStore !! "b"
  ∧ listData (ListPop "a" liveStore).2 !! "b" = listData liveStore !! "b".
Proof.
  refine (proj1 (proj2 (proj2 (proj2 (proj2 (proj2 (proj2
            (list_methods_frame "a" "x" liveStore))))))) "b" _).
  discriminate.
Defined.

(** SET and EXPIRE look at their first two and three arguments and
    ignore the rest; GET and DEL take exactly one argument, and with more
    they answer the empty string and do nothing. *)
Theorem extra_arguments (e : Env) (r : RedisStore) (k v s x : string)
    (more : list string) :
  processCommand e r (mkCommand "SET" (k :: v :: more))
    = processCommand e r (mkCommand "SET" [k; v])
  ∧ processCommand e r (mkCommand "EXPIRE" (k :: v :: s :: more))
    = processCommand e r (mkCommand "EXPIRE" [k; v; s])
  ∧ processCommand e r (mkCommand "GET" (k :: x :: more)) = Returned "" r
  ∧ processCommand e r (mkCommand "DEL" (k :: x :: more)) = Returned "" r.
Proof. repeat split. Qed.

(** ** Replay *)

Lemma replayLines_app_aux (envs : nat → Env) (l1 l2 : list string) :
  ∀ i r,
    replayLines envs i (l1 ++ l2) r
    = match replayLines envs i l1 r with
      | Returned _ r' => replayLines envs (i + length l1) l2 r'
      | o => o
      end.
Proof.
  induction l1 as [|line l1 IH]; intros i r.
  - cbn. by rewrite Nat.add_0_r.
  - cbn [app replayLines length].
    replace (i + S (length l1))%nat with (S i + length l1)%nat by lia.
    destruct (splitOn SP line) as [|command [|a args]]; [apply IH..|].
    destruct (processCommand (envs i) r (mkCommand command (a :: args)));
      [apply IH | done..].
Qed.

(** X11. Replaying a log is replaying its first part and then the rest
    from the store the first part built; a panic or an exit in the first
    part ends the replay there. *)
Theorem replayLines_app (envs : nat → Env) (l1 l2 : list string)
    (i : nat) (r : RedisStore) :
  replayLines envs i (l1 ++ l2) r
  = match replayLines envs i l1 r with
    | Returned _ r' => replayLines envs (i + length l1) l2 r'
    | o => o
    end.
Proof.
  revert i r. induction l1 as [|line l1 IH]; intros i r.
  - cbn. by rewrite Nat.add_0_r.
  - cbn [app replayLines length].
    replace (i + S (length l1))%nat with (S i + length l1)%nat by lia.
    destruct (splitOn SP line) as [|command [|a args]]; [apply IH..|].
    destruct (processCommand (envs i) r (mkCommand command (a :: args)));
      [apply IH | done..].
Qed.

(** X12. A record named EXIT with at least one argument ends the process
    in the middle of the startup replay: when the lines before it are ones
    the replay passes over, [loadAOF] exits with the store untouched and
    the gate still closed, and no later record is applied.  (A bare EXIT,
    having no second part, is passed over.) *)
Theorem replay_EXIT_record (envs : nat → Env) (content : string)
    (readErr err : option error) (before after : list string)
    (line a : string) (args : list string) (r : RedisStore) :
  scanFile content readErr = ((before ++ line :: after)%list, err) →
  Forall skippedLine before →
  splitOn SP line = "EXIT" :: a :: args →
  loadAOF envs (Opened content readErr) r = Exited (setEnabled false r)
  ∧ skippedLine "EXIT".
Proof.
  intros Hs Hb Hl. split.
  - unfold loadAOF. rewrite Hs, replayLines_app_aux.
    rewrite replayLines_all_skipped by done.
    cbn [replayLines]. by rewrite Hl.
  - right; left. unfold unparseableLine. cbn. lia.
Qed.

Lemma replay_EXIT_record_witness :
  loadAOF (λ _, mkEnv 0 idOrder)
    (Opened ("LPUSH q a" +:+ newline +:+ "EXIT now" +:+ newline
             +:+ "SET k v" +:+ newline) None) NewRedisStore
  = Exited (setEnabled false NewRedisStore)
  ∧ skippedLine "EXIT".
Proof.
  apply (replay_EXIT_record (λ _, mkEnv 0 idOrder)
           ("LPUSH q a" +:+ newline +:+ "EXIT now" +:+ newline
            +:+ "SET k v" +:+ newline) None None
           ["LPUSH q a"] ["SET k v"] "EXIT now" "now" []).
  - vm_compute. reflexivity.
  - apply Forall_cons_2; [|apply Forall_nil_2].
    right; right. vm_compute. reflexivity.
  - vm_compute. reflexivity.
Defined.

(** X13. The gate after [loadAOF]: when the file opened and the replay
    returned, with or without a scan error, the gate is open; when the file
    could not be opened, its absence included, the gate stays closed, and
    no command run on the store afterwards reaches the log. *)
Theorem loadAOF_gate (envs : nat → Env) (r : RedisStore) :
  (∀ content readErr err r',
     loadAOF envs (Opened content readErr) r = Returned err r' →
     writeAOFEnabled r' = true)
  ∧ (∀ (e : error) (steps : list (Env * Command)),
       writeAOFEnabled (storeOf (loadAOF envs (OpenFails e) r)) = false
       ∧ aof (storeOf (handleCommands steps (storeOf (loadAOF envs (OpenFails e) r))))
         = aof r).
Proof.
  split.
  - intros content readErr err r' H. unfold loadAOF in H.
    destruct (scanFile content readErr) as [lines err'].
    destruct (replayLines envs 0 lines (setEnabled false r)); by simplify_eq.
  - intros e steps.
    assert (storeOf (loadAOF envs (OpenFails e) r) = setEnabled false r) as ->.
    { unfold loadAOF. by destruct (IsNotExist e). }
    split; [done|].
    by apply (handleCommands_frame_aux steps (setEnabled false r)).
Qed.

Lemma loadAOF_gate_witness :
  writeAOFEnabled (setEnabled true NewRedisStore) = true.
Proof.
  exact (proj1 (loadAOF_gate (λ _, mkEnv 0 idOrder) NewRedisStore)
           "" None None (setEnabled true NewRedisStore) eq_refl).
Defined.

(** ** Parsing a line *)

Lemma Fields_tokens (s : string) : Forall token (Fields s).
Proof.
  induction s as [|c s IH]; [constructor|].
  cbn [Fields]. destruct (asciiSpace c) eqn:Hc; [exact IH|].
  assert (token (String c "")) as Hone.
  { split; [done|]. cbn. by rewrite Hc. }
  destruct s as [|c' s']; [by apply Forall_singleton|].
  destruct (asciiSpace c') eqn:Hc'; [by apply Forall_cons_2|].
  destruct (Fields (String c' s')) as [|h t]; [by apply Forall_singleton|].
  apply Forall_cons in IH as [[Hh1 Hh2] Ht].
  apply Forall_cons_2; [|done]. split; [done|]. cbn. by rewrite Hc, Hh2.
Qed.

Lemma hasSpace_hasChar (c : ascii) (s : string) :
  asciiSpace c = true → hasSpace s = false → hasChar c s = false.
Proof.
  intros Hc. induction s as [|x s IH]; [done|]. cbn.
  intros [Hx Hs]%orb_false_elim. rewrite IH by done.
  destruct (Ascii.eqb_spec x c) as [->|]; [congruence | done].
Qed.

Lemma token_plainArg (s : string) : token s → plainArg s.
Proof.
  intros [_ H]. repeat split; by apply hasSpace_hasChar.
Qed.

Lemma length_ToUpper (s : string) : String.length (ToUpper s) = String.length s.
Proof. induction s as [|c s IH]; cbn; [done | by rewrite IH]. Qed.

Lemma upperByte_idemp (c : ascii) : upperByte (upperByte c) = upperByte c.
Proof. destruct c as [[] [] [] [] [] [] [] []]; reflexivity. Qed.

Lemma ToUpper_idemp (s : string) : ToUpper (ToUpper s) = ToUpper s.
Proof.
  induction s as [|c s IH]; cbn; [done|]. by rewrite upperByte_idemp, IH.
Qed.

Lemma Fields_joinLen_lead (s : string) :
  (joinLen (Fields s)
   + match s with
     | String c _ => if asciiSpace c then 1 else 0
     | EmptyString => 0
     end ≤ String.length s)%nat.
Proof.
  induction s as [|c s IH]; [done|].
  cbn [Fields String.length]. destruct (asciiSpace c) eqn:Hc.
  { destruct s as [|c' s']; [cbn; lia|]. destruct (asciiSpace c'); lia. }
  destruct s as [|c' s']; [cbn; lia|].
  destruct (asciiSpace c') eqn:Hc'.
  - destruct (Fields (String c' s')) as [|h t] eqn:E.
    + cbn in *. lia.
    + rewrite joinLen_cons2. cbn [String.length] in *. lia.
  - destruct (Fields (String c' s')) as [|h [|h' t]] eqn:E.
    + cbn in *. lia.
    + rewrite joinLen_singleton in *. cbn [String.length] in *. lia.
    + rewrite joinLen_cons2 in *. cbn [String.length] in *. lia.
Qed.

Lemma Fields_joinLen (s : string) : (joinLen (Fields s) ≤ String.length s)%nat.
Proof. pose proof (Fields_joinLen_lead s). lia. Qed.

Lemma allSpace_Fields (s : string) : allSpace s = true → Fields s = [].
Proof.
  induction s as [|c s IH]; [done|]. cbn.
  intros [Hc Hs]%andb_true_iff. rewrite Hc. by apply IH.
Qed.

Lemma parseCommand_wire (line : string) : netLine line → wireCommand (parseCommand line).
Proof.
  intros [_ Hlen]. unfold parseCommand.
  pose proof (Fields_tokens line) as Ht.
  pose proof (Fields_joinLen line) as Hj.
  destruct (Fields line) as [|name args].
  - split; [constructor|]. vm_compute. reflexivity.
  - apply Forall_cons in Ht as [_ Ht]. split.
    + cbn [Args]. eapply Forall_impl; [exact Ht|]. apply token_plainArg.
    + rewrite length_lineOf. cbn [Name Args]. rewrite length_ToUpper.
      pose proof (joinLen_cons name args).
      destruct args as [|a args].
      * rewrite joinLen_singleton in Hj. unfold joinLen. cbn. lia.
      * rewrite joinLen_cons2 in Hj. lia.
Qed.

(** X14. Whatever ASCII line a connection delivers, the command built from
    it has arguments that are not empty and hold no white space, so no
    space, line feed or carriage return, and a name that upper-casing
    leaves alone; a line of white space only gives the empty command, to
    which the engine answers the empty string without touching the store. *)
Theorem parseCommand_tokens (e : Env) (r : RedisStore) (line : string) :
  isASCII line = true →
  Forall token (Args (parseCommand line))
  ∧ Forall plainArg (Args (parseCommand line))
  ∧ ToUpper (Name (parseCommand line)) = Name (parseCommand line)
  ∧ (allSpace line = true →
     parseCommand line = {| Name := ""; Args := [] |}
     ∧ handleConnection [(e, line)] r = Returned [newline] r).
Proof.
  intros _. unfold parseCommand at 1 2 3 4.
  pose proof (Fields_tokens line) as Ht.
  assert (Forall token (Args match Fields line with
                             | [] => {| Name := ""; Args := [] |}
                             | name :: args => {| Name := ToUpper name; Args := args |}
                             end)) as Hargs.
  { destruct (Fields line) as [|name args]; [constructor|].
    by apply Forall_cons in Ht as [_ Ht]. }
  split; [exact Hargs|].
  split. { eapply Forall_impl; [exact Hargs|]. apply token_plainArg. }
  split. { destruct (Fields line); [done|]. apply ToUpper_idemp. }
  intros Hs. cbn [handleConnection]. unfold parseCommand.
  by rewrite (allSpace_Fields line Hs).
Qed.

Lemma parseCommand_tokens_witness :
  Forall token (Args (parseCommand "set  k   v"))
  ∧ Forall plainArg (Args (parseCommand "set  k   v"))
  ∧ ToUpper (Name (parseCommand "set  k   v")) = Name (parseCommand "set  k   v")
  ∧ (allSpace "set  k   v" = true →
     parseCommand "set  k   v" = {| Name := ""; Args := [] |}
     ∧ handleConnection [(mkEnv 0 idOrder, "set  k   v")] liveStore
       = Returned [newline] liveStore).
Proof.
  exact (parseCommand_tokens (mkEnv 0 idOrder) liveStore "set  k   v" eq_refl).
Defined.

Lemma Fields_token_app (tok rest : string) :
  token tok →
  (match rest with
   | EmptyString => True
   | String c _ => asciiSpace c = true
   end) →
  Fields (tok +:+ rest) = tok :: Fields rest.
Proof.
  intros [Hne Hsp] Hrest. induction tok as [|c tok IH]; [done|].
  cbn [hasSpace] in Hsp. apply orb_false_elim in Hsp as [Hc Htok].
  rewrite append_cons. destruct tok as [|c2 tok'].
  - rewrite append_nil_l. cbn [Fields]. rewrite Hc.
    destruct rest as [|c' rest']; [done|]. rewrite Hrest.
    reflexivity.
  - rewrite append_cons in *. cbn [Fields] in *. rewrite Hc.
    cbn [hasSpace] in Htok. apply orb_false_elim in Htok as [Hc2 Htok'].
    rewrite Hc2 in *.
    assert (Fields (String c2 (tok' +:+ rest)) = String c2 tok' :: Fields rest) as H.
    { cbn [Fields]. rewrite Hc2. apply IH; [done|]. cbn. by rewrite Hc2, Htok'. }
    cbn [Fields] in H. rewrite Hc2 in H. by rewrite H.
Qed.

Lemma Fields_Join (x : string) (xs : list string) :
  Forall token (x :: xs) → Fields (Join (x :: xs) " ") = x :: xs.
Proof.
  revert x. induction xs as [|y xs IH]; intros x H.
  - apply Forall_cons in H as [H _].
    change (Join [x] " ") with x.
    pose proof (Fields_token_app x "" H I) as Hf.
    by rewrite append_nil_r in Hf.
  - apply Forall_cons in H as [Hx H].
    rewrite Join_cons2.
    change (" " +:+ Join (y :: xs) " ") with (String SP (Join (y :: xs) " ")).
    rewrite Fields_token_app by done.
    change (Fields (String SP (Join (y :: xs) " ")))
      with (Fields (Join (y :: xs) " ")).
    by rewrite IH.
Qed.

(** X15. Writing a command as a line and parsing the line gives the
    command back, provided its name is an upper-case token and its
    arguments are tokens (not empty, free of white space). *)
Theorem parseCommand_lineOf (cmd : Command) :
  isASCII (lineOf cmd) = true →
  token (Name cmd) → ToUpper (Name cmd) = Name cmd →
  Forall token (Args cmd) →
  parseCommand (lineOf cmd) = cmd.
Proof.
  intros _ Hn Hu Ha. destruct cmd as [name args]. cbn [Name Args] in *.
  unfold parseCommand, lineOf. cbn [Name Args].
  destruct args as [|a args].
  - change (name +:+ " " +:+ Join [] " ") with (name +:+ String SP "").
    rewrite Fields_token_app by done.
    change (Fields (String SP "")) with (@nil string). by rewrite Hu.
  - change (name +:+ " " +:+ Join (a :: args) " ")
      with (Join (name :: a :: args) " ").
    rewrite Fields_Join by by apply Forall_cons_2. by rewrite Hu.
Qed.

Lemma parseCommand_lineOf_witness :
  parseCommand (lineOf (mkCommand "HMSET" ["h"; "f"; "v"]))
  = mkCommand "HMSET" ["h"; "f"; "v"].
Proof.
  apply parseCommand_lineOf; [reflexivity | split; [discriminate | reflexivity]
                             | reflexivity |].
  repeat (apply Forall_cons_2; [split; [discriminate | reflexivity]|]).
  apply Forall_nil_2.
Defined.

(** X16. The interactive loop cuts its line at single spaces where the
    network path cuts at runs of white space: on a line made of tokens
    with one space between them, both build the same command. *)
Theorem replCommand_agrees (x : string) (xs : list string) :
  isASCII (Join (x :: xs) " ") = true →
  Forall token (x :: xs) →
  replCommand (Join (x :: xs) " ") = parseCommand (Join (x :: xs) " ")
  ∧ replCommand (Join (x :: xs) " ") = {| Name := ToUpper x; Args := xs |}.
Proof.
  intros _ H. unfold replCommand, parseCommand.
  rewrite Fields_Join by done.
  rewrite splitOn_Join; [done|].
  eapply Forall_impl; [exact H|]. intros a Ha. by apply token_plainArg.
Qed.

Lemma replCommand_agrees_witness :
  replCommand (Join ["set"; "k"; "v"] " ") = parseCommand (Join ["set"; "k"; "v"] " ")
  ∧ replCommand (Join ["set"; "k"; "v"] " ")
    = {| Name := ToUpper "set"; Args := ["k"; "v"] |}.
Proof.
  apply replCommand_agrees; [reflexivity|].
  repeat (apply Forall_cons_2; [split; [discriminate | reflexivity]|]).
  apply Forall_nil_2.
Defined.

(** ** A connection *)

Lemma handleConnection_app (i1 i2 : list (Env * string)) :
  ∀ r,
    handleConnection (i1 ++ i2) r
    = match handleConnection i1 r with
      | Returned a r' =>
          match handleConnection i2 r' with
          | Returned b r'' => Returned (a ++ b)%list r''
          | o => o
          end
      | o => o
      end.
Proof.
  induction i1 as [|[e line] i1 IH]; intros r.
  - cbn. by destruct (handleConnection i2 r).
  - cbn [app handleConnection].
    destruct (processCommand e r (parseCommand line)) as [resp r1| |]; [|done..].
    rewrite IH. destruct (handleConnection i1 r1) as [a r'| |]; [|done..].
    by destruct (handleConnection i2 r').
Qed.

(** X17. Any client can end the server: a line whose first field is EXIT
    in any mix of letter cases, coming after lines that were answered,
    makes the process exit with the store as those lines left it; nothing
    after it on the connection is read. *)
Theorem network_EXIT (before after : list (Env * string)) (e : Env)
    (line name : string) (args written : list string) (r r' : RedisStore) :
  handleConnection before r = Returned written r' →
  isASCII line = true →
  Fields line = name :: args →
  ToUpper name = "EXIT" →
  handleConnection (before ++ (e, line) :: after) r = Exited r'.
Proof.
  intros Hb _ Hf Hn. rewrite handleConnection_app, Hb.
  cbn [handleConnection]. unfold parseCommand. rewrite Hf, Hn. reflexivity.
Qed.

Lemma network_EXIT_witness :
  handleConnection
    ([(mkEnv 0 idOrder, "set k v")]
     ++ (mkEnv 1 idOrder, " eXiT now") :: [(mkEnv 2 idOrder, "get k")])
    liveStore
  = Exited (Set_ "k" (plainValue "v") liveStore).
Proof.
  apply (network_EXIT [(mkEnv 0 idOrder, "set k v")] [(mkEnv 2 idOrder, "get k")]
           (mkEnv 1 idOrder) " eXiT now" "eXiT" ["now"] ["OK" +:+ newline]);
    reflexivity.
Defined.

Lemma handleConnection_runOps (inputs : list (Env * string)) :
  ∀ r, storeOf (handleConnection inputs r) = storeOf (runOps (lineOps inputs) r).
Proof.
  unfold lineOps.
  induction inputs as [|[e line] inputs IH]; intros r; [done|].
  cbn [handleConnection map runOps fst snd].
  destruct (processCommand e r (parseCommand line)) as [resp r1| |]; [|done..].
  rewrite <- (IH r1). by destruct (handleConnection inputs r1).
Qed.

Lemma lineOps_wire (inputs : list (Env * string)) :
  Forall (λ el, netLine el.2) inputs → Forall wireOp (lineOps inputs).
Proof.
  intros H. unfold lineOps. apply Forall_fmap.
  eapply Forall_impl; [exact H|]. intros [e line] Hl. cbn.
  by apply parseCommand_wire.
Qed.

(** The replay of the log of a run of wire operations, as one equation. *)
Lemma restart_replica (ops : list Op) (envs : nat → Env) :
  Forall wireOp ops →
  loadAOF envs (Opened (aof (storeOf (runOps ops liveStore))) None) NewRedisStore
  = Returned None (replicaOf (data (storeOf (runOps ops liveStore))) true).
Proof.
  intros Hw.
  destruct (run_replay ops Hw liveStore eq_refl) as (ls & Ha & Hg & Hr).
  unfold loadAOF. rewrite Ha. cbn [aof liveStore]. rewrite append_nil_l.
  rewrite scanFile_terminated by done.
  specialize (Hr envs 0%nat []). rewrite app_nil_r in Hr.
  change (setEnabled false NewRedisStore) with (replicaOf (data liveStore) false).
  by rewrite Hr.
Qed.

(** X18. What clients did over connections survives a restart up to
    expirations: after any sequence of ASCII lines handled from the store of
    a new file, replaying the log into a new store succeeds and gives the
    same scalar keys with the same values, every expiration cleared, the
    gate open; whether the run ended in an exit or a panic makes no
    difference. *)
Theorem network_restart (inputs : list (Env * string)) (envs : nat → Env) :
  Forall (λ el, netLine el.2) inputs →
  loadAOF envs
    (Opened (aof (storeOf (handleConnection inputs liveStore))) None)
    NewRedisStore
  = Returned None
      {| data := clearExpiration
                   <$> data (storeOf (handleConnection inputs liveStore));
         listData := ∅; aof := ""; writeAOFEnabled := true |}.
Proof.
  intros H. rewrite handleConnection_runOps.
  by apply restart_replica, lineOps_wire.
Qed.

Lemma network_restart_witness :
  loadAOF (λ _, mkEnv 9 idOrder)
    (Opened (aof (storeOf (handleConnection
                             [(mkEnv 0 idOrder, "set a 1");
                              (mkEnv 1 revOrder, "hmset h f v g w");
                              (mkEnv 2 idOrder, "expire k v 5");
                              (mkEnv 3 idOrder, "hmset h f")] liveStore))) None)
    NewRedisStore
  = Returned None
      {| data := clearExpiration
                   <$> data (storeOf (handleConnection
                             [(mkEnv 0 idOrder, "set a 1");
                              (mkEnv 1 revOrder, "hmset h f v g w");
                              (mkEnv 2 idOrder, "expire k v 5");
                              (mkEnv 3 idOrder, "hmset h f")] liveStore));
         listData := ∅; aof := ""; writeAOFEnabled := true |}.
Proof.
  apply network_restart.
  repeat (apply Forall_cons_2;
          [split; [reflexivity | vm_compute; reflexivity]|]).
  apply Forall_nil_2.
Defined.

(** * The first version (redis.go) *)

Lemma V1_applyLine_aof (lines : list string) :
  ∀ r, V1.aof (foldl V1.applyLine r lines) = V1.aof r.
Proof.
  induction lines as [|line lines IH]; intros r; [done|].
  cbn [foldl]. rewrite IH. unfold V1.applyLine.
  destruct (String.eqb line ""); [done|].
  destruct (String.eqb (Name (parseCommand line)) "SET"); [|done].
  by destruct (Args (parseCommand line)) as [|k [|v more]].
Qed.

Lemma V1_applyLine_keeps (lines : list string) (k : string) :
  ∀ r, is_Some (V1.data r !! k) →
       is_Some (V1.data (foldl V1.applyLine r lines) !! k).
Proof.
  induction lines as [|line lines IH]; intros r H; [done|].
  cbn [foldl]. apply IH. unfold V1.applyLine.
  destruct (String.eqb line ""); [done|].
  destruct (String.eqb (Name (parseCommand line)) "SET"); [|done].
  destruct (Args (parseCommand line)) as [|k' [|v more]]; [done..|].
  cbn. rewrite lookup_insert. by destruct (decide (k' = k)).
Qed.

(** X19. The replay of the first version writes nothing to the log and
    never unbinds a key: whatever the file holds, the text written stays
    the same and every key bound before [loadAOF] is bound after it. *)
Theorem V1_loadAOF_frame (f : File) (r : V1.RedisStore) :
  V1.aof (V1.loadAOF f r).2 = V1.aof r
  ∧ ∀ k, is_Some (V1.data r !! k) → is_Some (V1.data (V1.loadAOF f r).2 !! k).
Proof.
  unfold V1.loadAOF, V1.processAOFCommands. destruct f as [e|content readErr].
  - by destruct (IsNotExist e).
  - destruct (scanFile content readErr) as [lines err]. cbn [snd]. split.
    + apply V1_applyLine_aof.
    + intros k. apply V1_applyLine_keeps.
Qed.

Lemma V1_loadAOF_frame_witness :
  is_Some (V1.data (V1.loadAOF (Opened ("set a 2" +:+ newline +:+ "DEL k" +:+ newline) None)
                      (V1.Set_ "k" "v" V1.NewRedisStore)).2 !! "k").
Proof.
  refine (proj2 (V1_loadAOF_frame
                   (Opened ("set a 2" +:+ newline +:+ "DEL k" +:+ newline) None)
                   (V1.Set_ "k" "v" V1.NewRedisStore)) "k" _).
  by eexists.
Defined.

(** X20. In the first version SET binds the key and answers OK, a GET of
    the key then answers the value, a GET of a key that is not bound
    answers [nil], a GET changes nothing, a SET leaves other keys as they
    were, and every SET appends its record: there is no gate. *)
Theorem V1_SET_GET (k v : string) (more : list string) (r : V1.RedisStore) :
  V1.processCommand (mkCommand "SET" (k :: v :: more)) r
    = ("OK", V1.Set_ k v r)
  ∧ V1.processCommand (mkCommand "GET" [k]) (V1.Set_ k v r)
    = (v, V1.Set_ k v r)
  ∧ (∀ k', V1.data r !! k' = None →
       V1.processCommand (mkCommand "GET" [k']) r = ("nil", r))
  ∧ (∀ k', k' ≠ k →
       V1.processCommand (mkCommand "GET" [k']) (V1.Set_ k v r)
       = ((V1.processCommand (mkCommand "GET" [k']) r).1, V1.Set_ k v r))
  ∧ V1.aof (V1.Set_ k v r)
    = V1.aof r +:+ ("SET " +:+ k +:+ " " +:+ v +:+ newline).
Proof.
  split; [reflexivity|]. split.
  { unfold V1.processCommand, V1.Get. cbn. by rewrite lookup_insert_eq. }
  split.
  { intros k' H. unfold V1.processCommand, V1.Get. cbn. by rewrite H. }
  split.
  { intros k' Hne. unfold V1.processCommand, V1.Get. cbn.
    rewrite lookup_insert_ne by done. by destruct (V1.data r !! k'). }
  unfold V1.Set_, V1.writeAOF, aofLine, Join. cbn [V1.aof String.concat].
  by rewrite !append_assoc.
Qed.

Lemma V1_SET_GET_witness :
  V1.processCommand (mkCommand "GET" ["x"]) V1.NewRedisStore
  = ("nil", V1.NewRedisStore).
Proof.
  exact (proj1 (proj2 (proj2 (V1_SET_GET "k" "v" [] V1.NewRedisStore)))
           "x" eq_refl).
Defined.

Lemma V1_applyLine_SET (k v : string) (r : V1.RedisStore) :
  token k → token v →
  V1.applyLine r (recLine "SET" [k; v])
  = {| V1.data := <[k := v]> (V1.data r); V1.aof := V1.aof r |}.
Proof.
  intros Hk Hv. unfold V1.applyLine.
  change (String.eqb (recLine "SET" [k; v]) "") with false. cbn iota.
  rewrite recLine_Join. unfold parseCommand. rewrite Fields_Join.
  - reflexivity.
  - apply Forall_cons_2; [split; [discriminate | reflexivity]|].
    by repeat apply Forall_cons_2.
Qed.

Lemma V1_step (cmd : Command) (r : V1.RedisStore) :
  v1Command cmd →
  ∃ ls : list string,
    V1.aof (V1.processCommand cmd r).2
      = V1.aof r +:+ String.concat "" (terminated <$> ls)
    ∧ Forall goodLine ls
    ∧ ∀ a, foldl V1.applyLine {| V1.data := V1.data r; V1.aof := a |} ls
           = {| V1.data := V1.data (V1.processCommand cmd r).2; V1.aof := a |}.
Proof.
  intros (_ & Hargs & Hlen). rewrite length_lineOf in Hlen.
  assert (∃ ls : list string,
            V1.aof r = V1.aof r +:+ String.concat "" (terminated <$> ls)
            ∧ Forall goodLine ls
            ∧ ∀ a, foldl V1.applyLine {| V1.data := V1.data r; V1.aof := a |} ls
                   = {| V1.data := V1.data r; V1.aof := a |}) as Hnone.
  { exists []. cbn. by rewrite append_nil_r. }
  unfold V1.processCommand.
  destruct (String.eqb (Name cmd) "GET").
  { destruct (Args cmd) as [|k [|]]; [done| |done].
    by destruct (V1.Get k r) as [val []]. }
  destruct (String.eqb_spec (Name cmd) "SET") as [Hn|_]; [|done].
  destruct (Args cmd) as [|k [|v more]] eqn:E; [done..|].
  apply Forall_cons in Hargs as [Hk Hargs].
  apply Forall_cons in Hargs as [Hv _].
  exists [recLine "SET" [k; v]]. cbn [snd]. split; [|split].
  - unfold V1.Set_, V1.writeAOF. cbn [V1.aof fmap list_fmap String.concat].
    by rewrite aofLine_recLine.
  - apply Forall_singleton.
    eapply plain_recLine; [by apply plainArg_literal
                          | repeat (apply Forall_cons_2; [by apply token_plainArg|]);
                            apply Forall_nil_2
                          | apply length_recLine |].
    rewrite Hn in Hlen. rewrite !joinLen_cons2, ?joinLen_singleton in *.
    pose proof (joinLen_cons v more). cbn [String.length] in *. lia.
  - intros a. cbn [foldl]. by rewrite V1_applyLine_SET.
Qed.

Lemma V1_run_replay (cmds : list Command) :
  Forall v1Command cmds →
  ∀ r, ∃ ls : list string,
    V1.aof (V1.run cmds r)
      = V1.aof r +:+ String.concat "" (terminated <$> ls)
    ∧ Forall goodLine ls
    ∧ ∀ a, foldl V1.applyLine {| V1.data := V1.data r; V1.aof := a |} ls
           = {| V1.data := V1.data (V1.run cmds r); V1.aof := a |}.
Proof.
  induction 1 as [|cmd cmds Hc _ IH]; intros r.
  { exists []. cbn. by rewrite append_nil_r. }
  destruct (V1_step cmd r Hc) as (ls1 & Ha1 & Hg1 & Hr1).
  destruct (IH (V1.processCommand cmd r).2) as (ls2 & Ha2 & Hg2 & Hr2).
  exists (ls1 ++ ls2)%list. unfold V1.run in *. cbn [foldl].
  split; [|split].
  - rewrite Ha2, Ha1, fmap_app, concat_app. by rewrite append_assoc.
  - by apply Forall_app.
  - intros a. by rewrite foldl_app, Hr1, Hr2.
Qed.

(** X21. The first version restores its store exactly: after any run of
    commands whose arguments are ASCII tokens, started on a new store,
    [loadAOF] of the log the run wrote returns no error and builds the
    same map. *)
Theorem V1_replay_restores (cmds : list Command) :
  Forall v1Command cmds →
  V1.loadAOF (Opened (V1.aof (V1.run cmds V1.NewRedisStore)) None) V1.NewRedisStore
  = (None, {| V1.data := V1.data (V1.run cmds V1.NewRedisStore);
              V1.aof := "" |}).
Proof.
  intros H.
  destruct (V1_run_replay cmds H V1.NewRedisStore) as (ls & Ha & Hg & Hr).
  unfold V1.loadAOF, V1.processAOFCommands. rewrite Ha.
  cbn [V1.aof V1.NewRedisStore]. rewrite append_nil_l.
  rewrite scanFile_terminated by done. f_equal. apply (Hr "").
Qed.

Lemma V1_replay_restores_witness :
  V1.loadAOF
    (Opened (V1.aof (V1.run [mkCommand "SET" ["a"; "1"]; mkCommand "GET" ["a"];
                             mkCommand "SET" ["a"; "2"; "x"]] V1.NewRedisStore))
       None) V1.NewRedisStore
  = (None, {| V1.data := V1.data (V1.run [mkCommand "SET" ["a"; "1"];
                                          mkCommand "GET" ["a"];
                                          mkCommand "SET" ["a"; "2"; "x"]]
                                     V1.NewRedisStore);
              V1.aof := "" |}).
Proof.
  apply V1_replay_restores.
  repeat (apply Forall_cons_2;
          [split; [reflexivity|]; split;
             [repeat (apply Forall_cons_2; [split; [discriminate | reflexivity]|]);
              apply Forall_nil_2
             | vm_compute; reflexivity]|]).
  apply Forall_nil_2.
Defined.

(** * The log only grows *)

Lemma processCommand_appends (e : Env) (r : RedisStore) (cmd : Command) :
  ∃ ls : list string,
    aof (storeOf (processCommand e r cmd))
    = aof r +:+ String.concat "" (terminated <$> ls).
Proof.
  rewrite processCommand_aof, recordsOf_lines. unfold logged.
  destruct (writeAOFEnabled r); [by eexists|].
  exists []. reflexivity.
Qed.

(** X22. The log is append-only and made of whole lines: whatever a run of
    commands does and however it ends, the text written after it is the
    text written before it followed by zero or more records, each ended by
    a line feed. *)
Theorem log_append_only (steps : list (Env * Command)) (r : RedisStore) :
  ∃ ls : list string,
    aof (storeOf (handleCommands steps r))
    = aof r +:+ String.concat "" (map (λ l, l +:+ newline) ls).
Proof.
  revert r. induction steps as [|[e cmd] steps IH]; intros r.
  { exists []. cbn. by rewrite append_nil_r. }
  cbn [handleCommands].
  destruct (processCommand_appends e r cmd) as (ls1 & H1).
  destruct (processCommand e r cmd) as [resp r1|r1|r1]; cbn [storeOf] in *;
    [|by exists ls1..].
  destruct (IH r1) as (ls2 & H2).
  exists (ls1 ++ ls2)%list.
  assert (aof (storeOf match handleCommands steps r1 with
                       | Returned resps r'' => Returned (resp :: resps) r''
                       | Panicked r0 => Panicked r0
                       | Exited r0 => Exited r0
                       end) = aof (storeOf (handleCommands steps r1))) as ->.
  { by destruct (handleCommands steps r1). }
  rewrite H2, H1.
  change (map (λ l, l +:+ newline)) with (fmap (M := list) terminated).
  by rewrite fmap_app, concat_app, append_assoc.
Qed.
